(** * SI206 final project: stop and POI ingestion, aggregation

    A shallow embedding of [septa.py], [pois.py] and the aggregation part of
    [stats.py].

    - The SQLite tables [stops] and [pois] are lists of rows in insertion
      order (the order of their AUTOINCREMENT ids).
    - SQL NULL and Python [None] are [None] of an option type; SQL
      comparisons with NULL never hold.
    - A JSON object is a record of fields. A field read with
      [dict.get(key)] is [None] when the key is absent or null; a field read
      with a default is absent (the default stands in), null ([None]) or a
      string.
    - The HTTP layer is a parameter: a function from the request to a
      response made of a status code and of the decoded body, if it decodes.
    - The [while] loop of [store_septa_stops] is an iteration function run
      with fuel; the [for] loops of [store_pois] recurse on their lists. *)

From Stdlib Require Import ZArith Bool String Arith Lia List.
From Stdlib Require Import Permutation.
Import ListNotations.
Open Scope string_scope.
Open Scope list_scope.
Open Scope nat_scope.

Set Implicit Arguments.

(** ** Python values and exceptions *)

(** What a Python function hands back to its caller, for the two batchers. *)
Inductive pyval : Type :=
| PyNone
| PyInt (z : Z).

Inductive exn : Type :=
| JSONDecodeError.

(** A call either returns or raises. *)
Inductive outcome (A : Type) : Type :=
| Returned (a : A)
| Raised (e : exn).

Arguments Returned {A} a.
Arguments Raised {A} e.

(** [requests.Response]: [json = None] is a body on which [r.json()]
    raises. A body that parses is taken to be what both fetchers document:
    a list of objects, whose fields are text, numbers or null. *)
Record response (A : Type) : Type := mkResponse {
  status_code : Z;
  json : option A
}.

(** ** SQL comparisons on nullable columns *)

(** [col = ?] on a TEXT column: NULL on either side is not a match. *)
Definition sql_text_eq (a b : option string) : bool :=
  match a, b with
  | Some x, Some y => String.eqb x y
  | _, _ => false
  end.

(** [col = ?] on an INTEGER column. *)
Definition sql_int_eq (a b : option Z) : bool :=
  match a, b with
  | Some x, Some y => Z.eqb x y
  | _, _ => false
  end.

(** [col <= ?] on an INTEGER column with a non-null parameter. *)
Definition sql_int_le (a : option Z) (b : Z) : bool :=
  match a with
  | Some x => Z.leb x b
  | None => false
  end.

(** ** Python dicts as insertion-ordered association lists *)

Section Dict.
Variables K V : Type.
Variable eqb : K -> K -> bool.

Definition dict := list (K * V).

(** [d.get(k)] *)
Fixpoint dict_get (d : dict) (k : K) : option V :=
  match d with
  | [] => None
  | (k', v) :: rest => if eqb k' k then Some v else dict_get rest k
  end.

(** [d[k] = v]: an existing key keeps its position, a new one goes last. *)
Fixpoint dict_set (d : dict) (k : K) (v : V) : dict :=
  match d with
  | [] => [(k, v)]
  | (k', v') :: rest =>
      if eqb k' k then (k', v) :: rest else (k', v') :: dict_set rest k v
  end.

(** [d.pop(k)] *)
Fixpoint dict_pop (d : dict) (k : K) : dict :=
  match d with
  | [] => []
  | (k', v') :: rest =>
      if eqb k' k then rest else (k', v') :: dict_pop rest k
  end.

Definition keys (d : dict) : list K := map fst d.
End Dict.

(** ** The two tables *)

Module StopsTable.
(** [stops (id, stop_type, stop_id, name, lat, lon)]; [lat] and [lon] are
    kept as the text the source sent. *)
Record row : Type := mkRow {
  id : Z;
  stop_type : string;
  stop_id : option string;
  name : option string;
  lat : option string;
  lon : option string
}.
End StopsTable.

Module PoisTable.
(** [pois (id, stop_id, distance, category, name)] *)
Record row : Type := mkRow {
  id : Z;
  stop_id : Z;
  distance : option Z;
  category : option string;
  name : option string
}.
End PoisTable.

(** AUTOINCREMENT: one more than the largest id in use. *)
Definition next_id (ids : list Z) : Z :=
  (1 + fold_right Z.max 0 ids)%Z.

(** * septa.py *)

Module Septa.
Import StopsTable.

Definition BATCH_SIZE : nat := 25.
Definition STOP_TYPES : list string :=
  ["bus_stops"; "trolley_stops"; "rail_stations"].

(** One element of the listing the SEPTA API answers with. *)
Record stop_record : Type := mkStop {
  location_id : option string;
  location_name : option string;
  location_lat : option string;
  location_lon : option string
}.

(** [fetch_septa_stops]: [data = r.json() if r.status_code == 200 else []]
    for the response [r] of the GET request. *)
Definition fetch_septa_stops (r : response (list stop_record))
  : outcome (list stop_record) :=
  if Z.eqb (status_code r) 200 then
    match json r with
    | Some data => Returned data
    | None => Raised JSONDecodeError
    end
  else Returned [].

(** [SELECT 1 FROM stops WHERE stop_type=? AND stop_id=?] finds a row. *)
Definition stop_exists (db : list row) (stype : string)
    (sid : option string) : bool :=
  existsb (fun r => String.eqb (stop_type r) stype
                    && sql_text_eq (stop_id r) sid) db.

(** [INSERT INTO stops (stop_type, stop_id, name, lat, lon) VALUES ...] *)
Definition insert_stop (db : list row) (stype : string)
    (c : stop_record) : list row :=
  db ++ [mkRow (next_id (map id db)) stype (location_id c)
               (location_name c) (location_lat c) (location_lon c)].

(** The state the [while] loops of [store_septa_stops] work on. *)
Record loop_state : Type := mkState {
  beeg_data : dict string (list stop_record);
  stops : list row;
  num_inserted : nat
}.

(** [while len(beeg_data[stype]) > 0: ...]: the candidates left in the
    category's list, the table, and whether the loop left by the [break]
    that follows an insertion. A candidate found in the table is popped
    and the loop goes on. *)
Fixpoint inner_loop (stype : string) (l : list stop_record)
    (db : list row) : list stop_record * list row * bool :=
  match l with
  | [] => ([], db, false)
  | c :: rest =>
      if stop_exists db stype (location_id c)
      then inner_loop stype rest db
      else (rest, insert_stop db stype c, true)
  end.

Inductive iteration : Type :=
| Exit
| Continue (s : loop_state).

(** One pass through the condition and the body of the outer [while].
    [list(beeg_data.keys())[item_num]] and [beeg_data[stype]] are the key
    and the value of the entry at position [item_num], which is in range
    since it is a remainder modulo the length. *)
Definition outer_iteration (cap : nat) (s : loop_state) : iteration :=
  let bd := beeg_data s in
  if (num_inserted s <? cap) || (length bd =? 0) then
    if length bd =? 0 then Exit
    else
      let item_num := num_inserted s mod length bd in
      let '(stype, l) := nth item_num bd (EmptyString, []) in
      match inner_loop stype l (stops s) with
      | (rest, db', true) =>
          let bd' := if length rest =? 0
                     then dict_pop String.eqb bd stype
                     else dict_set String.eqb bd stype rest in
          Continue (mkState bd' db' (num_inserted s + 1))
      | (rest, db', false) =>
          Continue (mkState (dict_set String.eqb bd stype rest) db'
                            (num_inserted s))
      end
  else Exit.

(** The outer loop, for at most [fuel] evaluations of its condition:
    [None] when it has not left by then. *)
Fixpoint run_loop (fuel : nat) (cap : nat) (s : loop_state)
  : option loop_state :=
  match fuel with
  | O => None
  | S fuel' =>
      match outer_iteration cap s with
      | Exit => Some s
      | Continue s' => run_loop fuel' cap s'
      end
  end.

(** The state after [n] passes, or the one the loop left with. *)
Fixpoint run_steps (n : nat) (cap : nat) (s : loop_state) : loop_state :=
  match n with
  | O => s
  | S n' =>
      match outer_iteration cap s with
      | Exit => s
      | Continue s' => run_steps n' cap s'
      end
  end.

(** The state the loop starts in: the dict literal keyed by [STOP_TYPES]. *)
Definition init_state (bus trolley rail : list stop_record)
    (db : list row) : loop_state :=
  mkState [("bus_stops", bus); ("trolley_stops", trolley);
           ("rail_stations", rail)] db 0.

(** The loop and what follows it, once the three listings are fetched.
    The function has no [return] statement: its caller gets [None]. *)
Definition store_fetched (cap fuel : nat)
    (bus trolley rail : list stop_record) (db : list row)
  : option (list row * pyval) :=
  match run_loop fuel cap (init_state bus trolley rail db) with
  | Some s => Some (stops s, PyNone)
  | None => None
  end.

(** [store_septa_stops]: [api] answers the GET request for a stop type
    (the centre and the radius of the request are module constants). The
    three fetches run in the order of the dict literal; an exception of
    one of them leaves the function before the loop. [None]: the loop has
    not left within [fuel] passes. *)
Definition store_septa_stops (fuel : nat)
    (api : string -> response (list stop_record)) (db : list row)
  : option (outcome (list row * pyval)) :=
  match fetch_septa_stops (api "bus_stops") with
  | Raised e => Some (Raised e)
  | Returned bus =>
      match fetch_septa_stops (api "trolley_stops") with
      | Raised e => Some (Raised e)
      | Returned trolley =>
          match fetch_septa_stops (api "rail_stations") with
          | Raised e => Some (Raised e)
          | Returned rail =>
              match store_fetched BATCH_SIZE fuel bus trolley rail db with
              | Some res => Some (Returned res)
              | None => None
              end
          end
      end
  end.

(** The natural key of a stored stop: a row without an external id has
    none. *)
Definition natural_key (r : row) : option (string * string) :=
  match stop_id r with
  | Some i => Some (stop_type r, i)
  | None => None
  end.

(** The natural keys of the rows that have one, in order. *)
Fixpoint natural_keys (rows : list row) : list (string * string) :=
  match rows with
  | [] => []
  | r :: rest =>
      match natural_key r with
      | Some k => k :: natural_keys rest
      | None => natural_keys rest
      end
  end.

(** *** The rotation in the specification's words *)

(** One round: one draw from each category that has candidates left, in
    order, while the cap allows. A category is given by its name and the
    number of its new candidates. *)
Fixpoint spec_round (cats : list (string * nat)) (budget : nat)
  : list string :=
  match cats with
  | [] => []
  | (k, n) :: rest =>
      match n, budget with
      | S _, S budget' => k :: spec_round rest budget'
      | _, _ => spec_round rest budget
      end
  end.

(** "One candidate stop from category A, then B, then C, then A again",
    an exhausted category being dropped: the categories drawn from, for at
    most [rounds] rounds. *)
Fixpoint spec_round_robin (rounds : nat) (cats : list (string * nat))
    (budget : nat) : list string :=
  match rounds with
  | O => []
  | S rounds' =>
      let drawn := spec_round cats budget in
      drawn ++ spec_round_robin rounds'
                 (map (fun kv => (fst kv, Nat.pred (snd kv))) cats)
                 (budget - length drawn)
  end.

(** *** Notions used to describe the loop *)

(** The candidates of a category are all new: the existence check finds
    none of them in the table, and none matches a later one of the list. *)
Fixpoint all_new (db : list row) (stype : string) (l : list stop_record)
  : Prop :=
  match l with
  | [] => True
  | c :: rest =>
      stop_exists db stype (location_id c) = false
      /\ Forall (fun c' => sql_text_eq (location_id c) (location_id c')
                           = false) rest
      /\ all_new db stype rest
  end.

(** A state in which every category of [beeg_data] has candidates left and
    all of them are new. *)
Definition fresh_state (s : loop_state) : Prop :=
  NoDup (keys (beeg_data s))
  /\ Forall (fun kv => snd kv <> [] /\ all_new (stops s) (fst kv) (snd kv))
            (beeg_data s).

(** The number of candidates left in [beeg_data]. *)
Definition candidates_left (bd : dict string (list stop_record)) : nat :=
  list_sum (map (fun kv => length (snd kv)) bd).

(** The row [r] holds the type [stype] and the fields of the candidate
    [c]. *)
Definition row_of (stype : string) (c : stop_record) (r : row) : Prop :=
  stop_type r = stype /\ stop_id r = location_id c
  /\ name r = location_name c /\ lat r = location_lat c
  /\ lon r = location_lon c.

End Septa.

(** * pois.py *)

Module Pois.

Definition BATCH_SIZE : nat := 25.
Definition POI_RADII : list Z := [416; 833; 1250]%Z.

(** A text field of a JSON object: the key is absent, present with the
    value null, or present with a string. *)
Inductive field : Type :=
| Absent
| Null
| Text (s : string).

(** [d.get(key, default)]: the default stands in for an absent key only;
    a key that is present with null gives [None]. *)
Definition get_default (f : field) (default : string) : option string :=
  match f with
  | Absent => Some default
  | Null => None
  | Text s => Some s
  end.

(** One element of the listing LocationIQ answers with: the keys
    ["distance"], ["name"] and ["class"] of the JSON object. For
    ["distance"], read with [pd.get("distance")], an absent key and a null
    are the same [None]. *)
Record poi : Type := mkPoi {
  poi_distance : option Z;
  poi_name : field;
  poi_class : field
}.

(** [pd.get("name", "Unknown Name")] and [pd.get("class", "Unknown
    Category")]. *)
Definition pname (pd : poi) : option string :=
  get_default (poi_name pd) "Unknown Name".
Definition pcat (pd : poi) : option string :=
  get_default (poi_class pd) "Unknown Category".

(** [fetch_locationiq_pois], for the response [r] of the GET request:
    the [try] around [r.json()] has a bare [except]. *)
Definition fetch_locationiq_pois (r : response (list poi))
  : outcome (list poi) :=
  if Z.eqb (status_code r) 200 then
    match json r with
    | Some data => Returned data
    | None => Returned []
    end
  else Returned [].

(** [SELECT COUNT( * ) FROM pois WHERE stop_id=?] *)
Definition count_for_stop (db : list PoisTable.row) (sid : Z) : nat :=
  length (filter (fun p => Z.eqb (PoisTable.stop_id p) sid) db).

(** [SELECT * FROM pois WHERE stop_id=? AND distance=? AND category=? AND
    name=?] finds a row. *)
Definition poi_exists (db : list PoisTable.row) (sid : Z)
    (pdist : option Z) (cat nm : option string) : bool :=
  existsb (fun p => Z.eqb (PoisTable.stop_id p) sid
                    && sql_int_eq (PoisTable.distance p) pdist
                    && sql_text_eq (PoisTable.category p) cat
                    && sql_text_eq (PoisTable.name p) nm) db.

(** [INSERT INTO pois (stop_id, distance, name, category) VALUES ...] *)
Definition insert_poi (db : list PoisTable.row) (sid : Z)
    (pdist : option Z) (nm cat : option string) : list PoisTable.row :=
  db ++ [PoisTable.mkRow (next_id (map PoisTable.id db)) sid pdist cat nm].

(** [SELECT DISTINCT stop_id FROM pois ORDER BY stop_id DESC LIMIT 2] *)
Fixpoint insert_desc (x : Z) (l : list Z) : list Z :=
  match l with
  | [] => [x]
  | y :: rest => if Z.ltb y x then x :: l else y :: insert_desc x rest
  end.

Definition sort_desc (l : list Z) : list Z := fold_right insert_desc [] l.

Definition pois_stop_ids (db : list PoisTable.row) : list Z :=
  firstn 2 (sort_desc (nodup Z.eq_dec (map PoisTable.stop_id db))).

Definition second_to_last_stop_id (db : list PoisTable.row) : option Z :=
  let ids := pois_stop_ids db in
  if length ids =? 2 then nth_error ids 1 else None.

(** A row of [SELECT id, lat, lon, name FROM stops]. *)
Definition stop_tuple : Type :=
  (Z * option string * option string * option string)%type.

Definition select_stops (stops : list StopsTable.row) : list stop_tuple :=
  map (fun r => (StopsTable.id r, StopsTable.lat r, StopsTable.lon r,
                 StopsTable.name r)) stops.

Definition tuple_id (t : stop_tuple) : Z :=
  let '(sid, _, _, _) := t in sid.

(** [[i for i, (sid, slat, slon, n) in enumerate(all_stops) if sid ==
    second_to_last_stop_id]], counting from [i]. *)
Fixpoint indices (i : nat) (all_stops : list stop_tuple) (target : Z)
  : list nat :=
  match all_stops with
  | [] => []
  | t :: rest =>
      if Z.eqb (tuple_id t) target
      then i :: indices (S i) rest target
      else indices (S i) rest target
  end.

(** The visitation list: [all_stops[start_index:] +
    all_stops[:start_index]] when the second stop id of the query is among
    the stops. *)
Definition reorder (all_stops : list stop_tuple)
    (db : list PoisTable.row) : list stop_tuple :=
  match second_to_last_stop_id db with
  | Some target =>
      match indices 0 all_stops target with
      | start_index :: _ =>
          skipn start_index all_stops ++ firstn start_index all_stops
      | [] => all_stops
      end
  | None => all_stops
  end.

(** [for pd in pois_data: ...], on the table and [inserted_count]; the
    [break] leaves the remaining records unread. *)
Fixpoint for_pois_data (cap : nat) (sid : Z) (pois_data : list poi)
    (st : list PoisTable.row * nat) : list PoisTable.row * nat :=
  match pois_data with
  | [] => st
  | pd :: rest =>
      let '(db, inserted_count) := st in
      if poi_exists db sid (poi_distance pd) (pcat pd) (pname pd)
      then for_pois_data cap sid rest st
      else
        let st' := (insert_poi db sid (poi_distance pd) (pname pd) (pcat pd),
                    inserted_count + 1) in
        if cap <=? inserted_count + 1 then st'
        else for_pois_data cap sid rest st'
  end.

(** The LocationIQ endpoint: latitude, longitude and radius of the
    request to the response. *)
Definition locationiq : Type :=
  option string -> option string -> Z -> response (list poi).

(** [for stop_id, slat, slon, n in all_stops: ...] *)
Fixpoint for_all_stops (cap : nat) (api : locationiq)
    (all_stops : list stop_tuple) (st : list PoisTable.row * nat)
  : outcome (list PoisTable.row * nat) :=
  match all_stops with
  | [] => Returned st
  | (sid, slat, slon, n) :: rest =>
      if cap <=? snd st then Returned st
      else if count_for_stop (fst st) sid <? 50 then
        match fetch_locationiq_pois (api slat slon (nth 2 POI_RADII 0%Z)) with
        | Returned pois_data =>
            for_all_stops cap api rest (for_pois_data cap sid pois_data st)
        | Raised e => Raised e
        end
      else for_all_stops cap api rest st
  end.

(** [store_pois] with the batch size as a parameter: the new [pois] table
    and [inserted_count]. *)
Definition store_pois_with (cap : nat) (api : locationiq)
    (stops : list StopsTable.row) (db : list PoisTable.row)
  : outcome (list PoisTable.row * nat) :=
  for_all_stops cap api (reorder (select_stops stops) db) (db, 0).

(** [store_pois]: the new [pois] table and the returned count. *)
Definition store_pois (api : locationiq) (stops : list StopsTable.row)
    (db : list PoisTable.row) : outcome (list PoisTable.row * pyval) :=
  match store_pois_with BATCH_SIZE api stops db with
  | Returned (db', inserted_count) =>
      Returned (db', PyInt (Z.of_nat inserted_count))
  | Raised e => Raised e
  end.

(** *** Notions the specification uses about the POI batcher *)

(** A stop that a further invocation would query: fewer than 50 stored
    POIs. *)
Definition unsaturated (db : list PoisTable.row) (t : stop_tuple) : bool :=
  count_for_stop db (tuple_id t) <? 50.

(** The listing the source has for a stop at the search radius. *)
Definition listing (api : locationiq) (t : stop_tuple) : list poi :=
  let '(_, slat, slon, _) := t in
  match fetch_locationiq_pois (api slat slon (nth 2 POI_RADII 0%Z)) with
  | Returned l => l
  | Raised _ => []
  end.

(** A record that the existence check can find once it is stored: it has
    a distance, and neither its name nor its class is null. *)
Definition checkable (pd : poi) : bool :=
  match poi_distance pd, pcat pd, pname pd with
  | Some _, Some _, Some _ => true
  | _, _, _ => false
  end.

(** A record of the listing that the existence check does not find. *)
Definition is_new (db : list PoisTable.row) (sid : Z) (pd : poi) : bool :=
  negb (poi_exists db sid (poi_distance pd) (pcat pd) (pname pd)).

(** An unsaturated stop whose listing has a record not yet stored. *)
Definition fetchable (api : locationiq) (db : list PoisTable.row)
    (t : stop_tuple) : bool :=
  unsaturated db t && existsb (is_new db (tuple_id t)) (listing api t).

Definition fetchable_remains (api : locationiq)
    (stops : list StopsTable.row) (db : list PoisTable.row) : bool :=
  existsb (fetchable api db) (select_stops stops).

(** The restart point in the specification's words: the most recently
    touched stop is the stop of the last inserted POI, the second most
    recently touched one is the stop of the latest POI of another stop. *)
Definition spec_most_recent_stop (db : list PoisTable.row) : option Z :=
  hd_error (rev (map PoisTable.stop_id db)).

Definition spec_restart_point (db : list PoisTable.row) : option Z :=
  match rev (map PoisTable.stop_id db) with
  | [] => None
  | m :: earlier => find (fun x => negb (Z.eqb x m)) earlier
  end.

(** Every element is at most the ones before it. *)
Fixpoint descending (l : list Z) : Prop :=
  match l with
  | [] => True
  | x :: rest => (forall y, In y rest -> (y <= x)%Z) /\ descending rest
  end.


(** The natural key of a stored POI: (stop, distance, category, name). A
    row with a null distance, category or name has none, since no check
    can find it. *)
Definition poi_key (r : PoisTable.row) : option (Z * Z * string * string) :=
  match PoisTable.distance r, PoisTable.category r, PoisTable.name r with
  | Some dist, Some cat, Some nm => Some (PoisTable.stop_id r, dist, cat, nm)
  | _, _, _ => None
  end.

Fixpoint poi_keys (rows : list PoisTable.row)
  : list (Z * Z * string * string) :=
  match rows with
  | [] => []
  | r :: rest =>
      match poi_key r with
      | Some k => k :: poi_keys rest
      | None => poi_keys rest
      end
  end.

(** The row [r] holds the stop [sid] and the fields of the record [pd],
    with the sentinels for a missing name or class. *)
Definition poi_row_of (sid : Z) (pd : poi) (r : PoisTable.row) : Prop :=
  PoisTable.stop_id r = sid /\ PoisTable.distance r = poi_distance pd
  /\ PoisTable.category r = pcat pd /\ PoisTable.name r = pname pd.

End Pois.

(** * stats.py: the aggregator *)

Module Stats.

Definition POI_RADII : list Z := [416; 833; 1250]%Z.
Definition STOP_TYPES : list string :=
  ["bus_stops"; "trolley_stops"; "rail_stations"].

(** An aggregate entry [(name, poi_count)]. *)
Definition entry : Type := (option string * nat)%type.

(** Python equality of two names, [None] included: the keys of
    [unique_dict]. *)
Definition name_eqb (a b : option string) : bool :=
  match a, b with
  | Some x, Some y => String.eqb x y
  | None, None => true
  | _, _ => false
  end.

(** [COUNT(p.id)] for one stop of [stops s LEFT JOIN pois p ON s.id =
    p.stop_id AND p.distance <= ?]. *)
Definition poi_count (db : list PoisTable.row) (sid : Z) (radius : Z)
  : nat :=
  length (filter (fun p => Z.eqb sid (PoisTable.stop_id p)
                           && sql_int_le (PoisTable.distance p) radius) db).

(** The rows of the query, one per stop ([GROUP BY s.id]). *)
Definition query (stops : list StopsTable.row) (db : list PoisTable.row)
    (radius : Z) : list (string * option string * nat) :=
  map (fun s => (StopsTable.stop_type s, StopsTable.name s,
                 poi_count db (StopsTable.id s) radius)) stops.

(** The entries the query has for the stops of one type. *)
Definition entries_of_type (stype : string)
    (rows : list (string * option string * nat)) : list entry :=
  map (fun row => (snd (fst row), snd row))
      (filter (fun row => String.eqb (fst (fst row)) stype) rows).

(** "Organize data by stop_type": a new type gets an empty list, then the
    entry is appended to the list of its type. *)
Definition organize (rows : list (string * option string * nat))
  : dict string (list entry) :=
  fold_left
    (fun d row =>
       let '(stop_type, name, c) := row in
       let l := match dict_get String.eqb d stop_type with
                | Some l => l
                | None => []
                end in
       dict_set String.eqb d stop_type (l ++ [(name, c)]))
    rows [].

(** [if name not in unique_dict or poi_count > unique_dict[name]:
    unique_dict[name] = poi_count] *)
Definition unique_step (unique_dict : dict (option string) nat)
    (e : entry) : dict (option string) nat :=
  let '(name, c) := e in
  match dict_get name_eqb unique_dict name with
  | None => dict_set name_eqb unique_dict name c
  | Some c0 =>
      if c0 <? c then dict_set name_eqb unique_dict name c
      else unique_dict
  end.

(** The deduplication of one type's list; the items of [unique_dict] are
    the new list. *)
Definition dedup (stops_list : list entry) : list entry :=
  fold_left unique_step stops_list [].

(** [list.sort(key=lambda x: x[1])]: stable, ascending by count. *)
Fixpoint insert_entry (e : entry) (l : list entry) : list entry :=
  match l with
  | [] => [e]
  | y :: rest =>
      if snd e <=? snd y then e :: l else y :: insert_entry e rest
  end.

Definition sort_by_count (l : list entry) : list entry :=
  fold_right insert_entry [] l.

(** [data_by_type] after the deduplication loop. *)
Definition deduplicated (stops : list StopsTable.row)
    (db : list PoisTable.row) (radius : Z) : dict string (list entry) :=
  map (fun kv => (fst kv, dedup (snd kv))) (organize (query stops db radius)).

(** [data_by_type] after the sorting loop. *)
Definition data_by_type (stops : list StopsTable.row)
    (db : list PoisTable.row) (radius : Z) : dict string (list entry) :=
  map (fun kv => (fst kv, sort_by_count (snd kv)))
      (deduplicated stops db radius).

(** [results[radius][stype]]: [top_5] as written out (reversed) and
    [least_5]. *)
Record section : Type := mkSection {
  most : list entry;
  least : list entry
}.

Definition report_section (d : dict string (list entry)) (stype : string)
  : section :=
  let stops_list := match dict_get String.eqb d stype with
                    | Some l => l
                    | None => []
                    end in
  let top_5 := if 5 <=? length stops_list
               then skipn (length stops_list - 5) stops_list
               else stops_list in
  let least_5 := firstn 5 stops_list in
  mkSection (rev top_5) least_5.

(** [calculate_data]: the sections of the report, by radius and type. *)
Definition calculate_data (stops : list StopsTable.row)
    (db : list PoisTable.row) : list (Z * list (string * section)) :=
  map (fun radius =>
         let d := data_by_type stops db radius in
         (radius, map (fun stype => (stype, report_section d stype))
                      STOP_TYPES))
      POI_RADII.

(** What [unique_dict] holds once the entries [seen] went through the
    loop: one count per name, which is the count of one of the entries of
    that name and is not under the count of any of them; every name seen
    has a count. *)
Definition unique_of (seen : list entry) (u : dict (option string) nat)
  : Prop :=
  NoDup (keys u)
  /\ (forall name c, dict_get name_eqb u name = Some c ->
        In (name, c) seen /\ forall c', In (name, c') seen -> c' <= c)
  /\ (forall name c', In (name, c') seen ->
        exists c, dict_get name_eqb u name = Some c).

(** [load_data_from_db]: [stop_dict[name] = (stype, lat, lon)] for the rows
    of [SELECT name, stop_type, lat, lon FROM stops], in order. *)
Definition stop_info : Type :=
  (string * option string * option string)%type.

Definition stop_dict (stops : list StopsTable.row)
  : dict (option string) stop_info :=
  fold_left
    (fun d s => dict_set name_eqb d (StopsTable.name s)
                         (StopsTable.stop_type s, StopsTable.lat s,
                          StopsTable.lon s))
    stops [].

(** [load_data_from_db]: [data[radius]] is [data_by_type] after the sorting
    loop, for each radius; the second component is [stop_dict]. *)
Definition load_data_from_db (stops : list StopsTable.row)
    (db : list PoisTable.row)
  : list (Z * dict string (list entry)) * dict (option string) stop_info :=
  (map (fun radius => (radius, data_by_type stops db radius)) POI_RADII,
   stop_dict stops).

(** Ascending by count. *)
Fixpoint ascending (l : list entry) : Prop :=
  match l with
  | [] => True
  | e :: rest => (forall e', In e' rest -> snd e <= snd e') /\ ascending rest
  end.

End Stats.

(** * stats.py: the driver *)

Module Main.

Definition NUM_SEPTA_RUNS : nat := 6.
Definition NUM_POI_RUNS : nat := 24.

(** [for i in range(...): septa.store_septa_stops()], from the pass [i] of
    the [for] loop on, [runs] passes being left: the [stops] table when the
    loop is over. The source may answer each invocation differently:
    [api i] answers the requests of the invocation number [i]. [None]: an
    invocation has not returned within [fuel] passes of its loop. *)
Fixpoint septa_runs (runs fuel i : nat)
    (api : nat -> string -> response (list Septa.stop_record))
    (db : list StopsTable.row) : option (outcome (list StopsTable.row)) :=
  match runs with
  | O => Some (Returned db)
  | S runs' =>
      match Septa.store_septa_stops fuel (api i) db with
      | None => None
      | Some (Raised e) => Some (Raised e)
      | Some (Returned (db', _)) => septa_runs runs' fuel (S i) api db'
      end
  end.

(** What the loop over [pois.store_pois()] ends with: the [pois] table and
    [total_pois], an exception of the callee, or the [TypeError] of adding
    or comparing a result that is not a number. *)
Inductive poi_loop_result : Type :=
| PoiDone (db : list PoisTable.row) (total_pois : Z)
| PoiRaised (e : exn)
| PoiTypeError.

(** [for i in range(...): b = pois.store_pois(); total_pois += b; if b <
    25: break], with [runs] passes left. *)
Fixpoint poi_runs (runs i : nat) (api : nat -> Pois.locationiq)
    (stops : list StopsTable.row) (db : list PoisTable.row)
    (total_pois : Z) : poi_loop_result :=
  match runs with
  | O => PoiDone db total_pois
  | S runs' =>
      match Pois.store_pois (api i) stops db with
      | Raised e => PoiRaised e
      | Returned (_, PyNone) => PoiTypeError
      | Returned (db', PyInt b) =>
          if (b <? 25)%Z then PoiDone db' (total_pois + b)
          else poi_runs runs' (S i) api stops db' (total_pois + b)
      end
  end.

End Main.

(** * Concrete inputs used by the examples below *)

Unset Implicit Arguments.

Module Examples.

(** The candidate number [i] of a category: its external id is the
    category followed by one letter. *)
Definition candidate (stype : string) (i : nat) : Septa.stop_record :=
  Septa.mkStop
    (Some (String.append stype
             (String (Ascii.ascii_of_nat (65 + i)) EmptyString)))
    (Some "Main St") (Some "39.95") (Some "-75.16").

Definition candidates (stype : string) (n : nat)
  : list Septa.stop_record :=
  map (candidate stype) (seq 0 n).

(** A SEPTA source that answers every request with [n] candidates. *)
Definition septa_source (n : nat)
  : string -> response (list Septa.stop_record) :=
  fun stype => mkResponse 200 (Some (candidates stype n)).

(** A SEPTA source that is down. *)
Definition septa_outage : string -> response (list Septa.stop_record) :=
  fun _ => mkResponse 503 None.

(** A SEPTA source whose body is not JSON. *)
Definition septa_garbled : response (list Septa.stop_record) :=
  mkResponse 200 None.

(** The [stops] table after one and after two invocations against
    [septa_source 20], from an empty table. *)
Definition table_after (db : list StopsTable.row) : list StopsTable.row :=
  match Septa.store_septa_stops 30 (septa_source 20) db with
  | Some (Returned (db', _)) => db'
  | _ => db
  end.

Definition stops_once : list StopsTable.row := table_after [].
Definition stops_twice : list StopsTable.row := table_after stops_once.

(** The [stops] table after one invocation against [septa_source 1]. *)
Definition three_stops : list StopsTable.row :=
  match Septa.store_septa_stops 4 (septa_source 1) [] with
  | Some (Returned (db', _)) => db'
  | _ => []
  end.

(** A record of the SEPTA listing without ["location_id"]. *)
Definition anonymous_stop : Septa.stop_record :=
  Septa.mkStop None (Some "Main St") (Some "39.95") (Some "-75.16").

(** A bus stop named Main St with the given id and latitude. *)
Definition bus_stop (i : Z) (latitude : string) : StopsTable.row :=
  StopsTable.mkRow i "bus_stops" (Some (String.append "stop-" latitude))
                   (Some "Main St") (Some latitude) (Some "-75.16").

Definition one_stop : list StopsTable.row := [bus_stop 1 "39.1"].

Definition three_bus_stops : list StopsTable.row :=
  [bus_stop 1 "39.1"; bus_stop 2 "39.2"; bus_stop 3 "39.3"].

(** An ATM at [d] metres. *)
Definition atm (d : nat) : Pois.poi :=
  Pois.mkPoi (Some (Z.of_nat d)) (Pois.Text "ATM") (Pois.Text "amenity").

Definition atms (n : nat) : list Pois.poi := map atm (seq 1 n).

(** An ATM whose record has no ["distance"]. *)
Definition atm_without_distance : Pois.poi :=
  Pois.mkPoi None (Pois.Text "ATM") (Pois.Text "amenity").

(** A LocationIQ source with [n] ATMs around every point. *)
Definition poi_source (n : nat) : Pois.locationiq :=
  fun _ _ _ => mkResponse 200 (Some (atms n)).

(** A source whose only record has no distance. *)
Definition poi_source_without_distance : Pois.locationiq :=
  fun _ _ _ => mkResponse 200 (Some [atm_without_distance]).

(** A source that is down for the requests around latitude 39.1 and has
    one ATM around every other point. *)
Definition poi_source_down_at_first : Pois.locationiq :=
  fun slat _ _ =>
    match slat with
    | Some l => if String.eqb l "39.1" then mkResponse 503 None
                else mkResponse 200 (Some (atms 1))
    | None => mkResponse 200 (Some (atms 1))
    end.

(** The [pois] table a call of [store_pois] leaves. *)
Definition pois_after (api : Pois.locationiq) (stops : list StopsTable.row)
    (db : list PoisTable.row) : list PoisTable.row :=
  match Pois.store_pois api stops db with
  | Returned (db', _) => db'
  | Raised _ => db
  end.

(** Two invocations over the three stops: the source is down around the
    first stop during the first one, and back for the second one. *)
Definition pois_first_run : list PoisTable.row :=
  pois_after poi_source_down_at_first three_bus_stops [].

Definition pois_second_run : list PoisTable.row :=
  pois_after (poi_source 1) three_bus_stops pois_first_run.

(** Two bus stops named Main St, with 2 and 7 ATMs within 416 metres. *)
Definition main_st_stops : list StopsTable.row :=
  [bus_stop 1 "39.1"; bus_stop 2 "39.2"].

Definition main_st_pois : list PoisTable.row :=
  pois_after (fun slat _ _ =>
                match slat with
                | Some l => if String.eqb l "39.1"
                            then mkResponse 200 (Some (atms 2))
                            else mkResponse 200 (Some (atms 7))
                | None => mkResponse 503 None
                end)
             main_st_stops [].

(** The rows the driver's loop collects over one stop with 30 ATMs, in at
    most 3 passes. *)
Definition driver_pois : list PoisTable.row :=
  match Main.poi_runs 3 0 (fun _ => poi_source 30) one_stop [] 0 with
  | Main.PoiDone db _ => db
  | _ => []
  end.

(** Three bus stops A, B and C with 3, 3 and 1 ATMs, and a rail station D
    with none. *)
Definition named_stop (i : Z) (stype nm latitude : string)
  : StopsTable.row :=
  StopsTable.mkRow i stype (Some (String.append "stop-" latitude))
                   (Some nm) (Some latitude) (Some "-75.16").

Definition abc_stops : list StopsTable.row :=
  [named_stop 1 "bus_stops" "A" "39.1"; named_stop 2 "bus_stops" "B" "39.2";
   named_stop 3 "bus_stops" "C" "39.3";
   named_stop 4 "rail_stations" "D" "39.4"].

Definition abc_source : Pois.locationiq :=
  fun slat _ _ =>
    match slat with
    | Some l =>
        if String.eqb l "39.3" then mkResponse 200 (Some (atms 1))
        else if String.eqb l "39.4" then mkResponse 200 (Some [])
        else mkResponse 200 (Some (atms 3))
    | None => mkResponse 503 None
    end.

Definition abc_pois : list PoisTable.row :=
  pois_after abc_source abc_stops [].

(** An ATM at 5 metres whose record has the key ["name"] with a null. *)
Definition atm_with_null_name : Pois.poi :=
  Pois.mkPoi (Some 5%Z) Pois.Null (Pois.Text "amenity").

Definition poi_source_with_null_name : Pois.locationiq :=
  fun _ _ _ => mkResponse 200 (Some [atm_with_null_name]).

(** 26 records without a distance, named A to Z. *)
Definition lettered (i : nat) : Pois.poi :=
  Pois.mkPoi None (Pois.Text (String (Ascii.ascii_of_nat (65 + i)) EmptyString))
             (Pois.Text "amenity").

Definition letters : list Pois.poi := map lettered (seq 0 26).

Definition poi_source_letters : Pois.locationiq :=
  fun _ _ _ => mkResponse 200 (Some letters).

(** The [pois] table after one, two and three invocations against
    [poi_source_letters], over one stop. *)
Definition letters_once : list PoisTable.row :=
  pois_after poi_source_letters one_stop [].
Definition letters_twice : list PoisTable.row :=
  pois_after poi_source_letters one_stop letters_once.
Definition letters_thrice : list PoisTable.row :=
  pois_after poi_source_letters one_stop letters_twice.

(** The [stops] table after the round-robin example: 10, 1 and 10
    candidates, a cap of 6. *)
Definition round_robin_stops : list StopsTable.row :=
  Septa.stops
    (Septa.run_steps 6 6
       (Septa.init_state (candidates "bus_stops" 10)
                         (candidates "trolley_stops" 1)
                         (candidates "rail_stations" 10) [])).

End Examples.

(** * Facts about septa.py *)

Section SeptaFacts.
Import StopsTable Septa.

Lemma sql_text_eq_refl_inv (a b : option string) :
  sql_text_eq a b = true -> a = b /\ a <> None.
Proof.
  destruct a as [x|], b as [y|]; simpl; try discriminate.
  intros E. apply String.eqb_eq in E. subst. split; congruence.
Qed.

Lemma sql_text_eq_neq (a b : option string) :
  a <> b -> sql_text_eq a b = false.
Proof.
  intros N. destruct (sql_text_eq a b) eqn:E; [|reflexivity].
  apply sql_text_eq_refl_inv in E. tauto.
Qed.

Lemma natural_keys_app (l1 l2 : list row) :
  natural_keys (l1 ++ l2) = natural_keys l1 ++ natural_keys l2.
Proof.
  induction l1 as [|r l1 IH]; simpl; [reflexivity|].
  destruct (natural_key r); simpl; now rewrite IH.
Qed.

(** The existence check finds every stored natural key. *)
Lemma stop_exists_natural_key (db : list row) (stype i : string) :
  stop_exists db stype (Some i) = false ->
  ~ In (stype, i) (natural_keys db).
Proof.
  unfold stop_exists.
  induction db as [|r db IH]; simpl; [tauto|].
  intros E. apply orb_false_elim in E. destruct E as [Er Edb].
  unfold natural_key. destruct (stop_id r) as [j|] eqn:Ej; [|now apply IH].
  simpl. intros [K|K]; [|now apply IH].
  inversion K; subst.
  rewrite String.eqb_refl in Er. simpl in Er.
  rewrite String.eqb_refl in Er. discriminate.
Qed.

(** The inner loop either drains the list without touching the table, or
    inserts one candidate that the check did not find. *)
Lemma inner_loop_cases (stype : string) (l : list stop_record)
    (db : list row) :
  (inner_loop stype l db = ([], db, false)
   /\ Forall (fun c => stop_exists db stype (location_id c) = true) l)
  \/ (exists c rest,
        inner_loop stype l db = (rest, insert_stop db stype c, true)
        /\ In c l
        /\ stop_exists db stype (location_id c) = false).
Proof.
  induction l as [|c l IH]; simpl.
  - left. split; [reflexivity|constructor].
  - destruct (stop_exists db stype (location_id c)) eqn:E.
    + destruct IH as [[IH1 IH2]|(c' & rest & IH1 & IH2 & IH3)].
      * left. split; [assumption|]. constructor; assumption.
      * right. exists c', rest. tauto.
    + right. exists c, l. tauto.
Qed.

(** What one pass of the outer loop does to the table and the counter. *)
Lemma outer_iteration_cases (cap : nat) (s s' : loop_state) :
  outer_iteration cap s = Continue s' ->
  num_inserted s < cap
  /\ ((stops s' = stops s /\ num_inserted s' = num_inserted s)
      \/ (exists stype c,
            stop_exists (stops s) stype (location_id c) = false
            /\ stops s' = insert_stop (stops s) stype c
            /\ num_inserted s' = num_inserted s + 1)).
Proof.
  unfold outer_iteration.
  destruct (length (beeg_data s) =? 0) eqn:El.
  - rewrite orb_true_r. discriminate.
  - rewrite orb_false_r.
    destruct (num_inserted s <? cap) eqn:En; [|discriminate].
    apply Nat.ltb_lt in En.
    destruct (nth (num_inserted s mod length (beeg_data s)) (beeg_data s)
                  (EmptyString, [])) as [stype l].
    destruct (inner_loop_cases stype l (stops s))
      as [[E _]|(c & rest & E & _ & Hc)]; rewrite E; intros H;
      inversion H; subst; clear H; simpl; split; try assumption.
    + left. tauto.
    + right. exists stype, c. tauto.
Qed.

(** The rows a run adds: appended to the table, as many as the counter
    grew by, with natural keys that are new to the table and pairwise
    distinct; the counter stays within the cap. *)
Lemma run_steps_inserted (cap n : nat) (s : loop_state) :
  exists ins,
    stops (run_steps n cap s) = stops s ++ ins
    /\ num_inserted (run_steps n cap s) = num_inserted s + length ins
    /\ NoDup (natural_keys ins)
    /\ (forall k, In k (natural_keys ins) ->
                  ~ In k (natural_keys (stops s)))
    /\ (num_inserted s <= cap -> num_inserted (run_steps n cap s) <= cap).
Proof.
  revert s. induction n as [|n IH]; intros s; simpl.
  - exists []. rewrite app_nil_r. simpl. repeat split;
      try constructor; try tauto; lia.
  - destruct (outer_iteration cap s) as [|s1] eqn:E.
    + exists []. rewrite app_nil_r. simpl. repeat split;
        try constructor; try tauto; lia.
    + apply outer_iteration_cases in E.
      destruct E as [Hlt [[Hs Hn]|(stype & c & Hc & Hs & Hn)]];
        destruct (IH s1) as (ins & I1 & I2 & I3 & I4 & I5).
      * exists ins. rewrite <- Hs, <- Hn.
        split; [exact I1|]. split; [exact I2|]. split; [exact I3|].
        split; [exact I4|]. intros _. apply I5. lia.
      * unfold insert_stop in Hs.
        set (r := mkRow (next_id (map id (stops s))) stype (location_id c)
                        (location_name c) (location_lat c)
                        (location_lon c)) in *.
        assert (Hr : forall i, location_id c = Some i ->
                               ~ In (stype, i) (natural_keys (stops s)))
          by (intros i Ei; apply stop_exists_natural_key;
              rewrite <- Ei; exact Hc).
        assert (Kr : natural_key r
                     = option_map (pair stype) (location_id c))
          by (unfold natural_key; simpl; now destruct (location_id c)).
        rewrite Hs, natural_keys_app in I4. simpl in I4. rewrite Kr in I4.
        exists (r :: ins).
        split; [rewrite I1, Hs, <- app_assoc; reflexivity|].
        split; [rewrite I2, Hn; simpl; lia|].
        simpl. rewrite Kr.
        destruct (location_id c) as [i|]; simpl in *.
        -- split; [|split].
           ++ constructor; [|exact I3].
              intros Hin. apply (I4 _ Hin). apply in_or_app. right.
              now left.
           ++ intros k [Hk|Hk] Hin.
              ** subst k. exact (Hr i eq_refl Hin).
              ** apply (I4 _ Hk). apply in_or_app. now left.
           ++ intros _. apply I5. lia.
        -- split; [exact I3|]. split.
           ++ intros k Hk Hin. apply (I4 _ Hk). apply in_or_app. now left.
           ++ intros _. apply I5. lia.
Qed.

(** A loop that has left is where the passes it took brought it. *)
Lemma run_loop_run_steps (cap fuel : nat) (s s' : loop_state) :
  run_loop fuel cap s = Some s' -> s' = run_steps fuel cap s.
Proof.
  revert s. induction fuel as [|fuel IH]; intros s; simpl; [discriminate|].
  destruct (outer_iteration cap s) as [|s1]; [congruence|apply IH].
Qed.

(** A pass that changes nothing is repeated for ever. *)
Lemma run_loop_stuck (cap : nat) (s : loop_state) :
  outer_iteration cap s = Continue s ->
  forall fuel, run_loop fuel cap s = None.
Proof.
  intros E fuel. induction fuel as [|fuel IH]; simpl; [reflexivity|].
  now rewrite E.
Qed.


(** The head of a duplicate-free list of ids matches none of the others. *)
Lemma NoDup_sql_text_neq (x y : option string) (l : list (option string)) :
  NoDup (x :: l) -> In y l -> sql_text_eq x y = false.
Proof.
  intros N Hy. apply sql_text_eq_neq. intros E. subst y.
  inversion N; subst. contradiction.
Qed.

Lemma length_10 {A : Type} (l : list A) :
  length l = 10 ->
  exists a0 a1 a2 a3 a4 a5 a6 a7 a8 a9,
    l = [a0; a1; a2; a3; a4; a5; a6; a7; a8; a9].
Proof.
  do 10 (destruct l as [|? l]; [discriminate|]).
  destruct l; [|discriminate]. intros _. repeat eexists.
Qed.

(** C6 fails as stated. With listings of 10, 1 and 10 new candidates, an
    empty table and a cap of 6, a rotation that gives each category one
    insertion per round draws bus, trolley, rail, bus, rail, bus. The loop
    draws bus, trolley, bus, rail, bus, rail: once the trolley category is
    dropped, the position [num_inserted % len(beeg_data)] is 2 % 2 = 0, so
    the third draw is from bus again and rail has no draw in the first
    round. *)
Lemma round_robin_passes_over_rail :
  map stop_type Examples.round_robin_stops
  = ["bus_stops"; "trolley_stops"; "bus_stops"; "rail_stations";
     "bus_stops"; "rail_stations"]
  /\ spec_round_robin 6 [("bus_stops", 10); ("trolley_stops", 1);
                         ("rail_stations", 10)] 6
     = ["bus_stops"; "trolley_stops"; "rail_stations"; "bus_stops";
        "rail_stations"; "bus_stops"]
  /\ ~ In "rail_stations"
          (firstn 3 (map stop_type Examples.round_robin_stops))
  /\ map stop_type Examples.round_robin_stops
     <> spec_round_robin 6 [("bus_stops", 10); ("trolley_stops", 1);
                            ("rail_stations", 10)] 6.
Proof.
  split; [vm_compute; reflexivity|]. split; [vm_compute; reflexivity|].
  split; [vm_compute; intuition discriminate|].
  vm_compute. discriminate.
Qed.

(** C6, amended. Against an empty table, with fetched listings of 10, 1
    and 10 candidates, all new, and a cap of 6, each pass inserts one stop,
    from the category at the position [num_inserted % len(beeg_data)] of
    the categories still in [beeg_data]: the six insertions are drawn from
    bus, trolley, bus, rail, bus, rail. The trolley category is in the
    rotation after the first pass and is gone from it after the second,
    which made its single insertion; the third draw is from bus again, and
    bus and rail alternate for the rest of the batch; the loop leaves with
    six insertions and the unused candidates of the two categories. *)
Theorem round_robin_10_1_10 (bus trolley rail : list stop_record) :
  length bus = 10 -> length trolley = 1 -> length rail = 10 ->
  NoDup (map location_id bus) -> NoDup (map location_id rail) ->
  let s0 := init_state bus trolley rail [] in
  keys (beeg_data (run_steps 1 6 s0))
    = ["bus_stops"; "trolley_stops"; "rail_stations"]
  /\ map stop_type (stops (run_steps 2 6 s0))
     = ["bus_stops"; "trolley_stops"]
  /\ keys (beeg_data (run_steps 2 6 s0)) = ["bus_stops"; "rail_stations"]
  /\ map stop_type (stops (run_steps 3 6 s0))
     = ["bus_stops"; "trolley_stops"; "bus_stops"]
  /\ exists s,
       run_loop 7 6 s0 = Some s
       /\ map stop_type (stops s)
          = ["bus_stops"; "trolley_stops"; "bus_stops"; "rail_stations";
             "bus_stops"; "rail_stations"]
       /\ num_inserted s = 6
       /\ beeg_data s
          = [("bus_stops", skipn 3 bus); ("rail_stations", skipn 2 rail)].
Proof.
  intros Hb Ht Hr Nb Nr.
  apply length_10 in Hb. destruct Hb as (b0&b1&b2&b3&b4&b5&b6&b7&b8&b9&->).
  apply length_10 in Hr. destruct Hr as (r0&r1&r2&r3&r4&r5&r6&r7&r8&r9&->).
  destruct trolley as [|t0 [|? ?]]; try discriminate.
  simpl in Nb, Nr.
  assert (B01 : sql_text_eq (location_id b0) (location_id b1) = false)
    by (apply (NoDup_sql_text_neq _ _ _ Nb); simpl; auto).
  assert (B02 : sql_text_eq (location_id b0) (location_id b2) = false)
    by (apply (NoDup_sql_text_neq _ _ _ Nb); simpl; auto).
  assert (B12 : sql_text_eq (location_id b1) (location_id b2) = false)
    by (inversion Nb as [|? ? _ Nb']; subst;
        apply (NoDup_sql_text_neq _ _ _ Nb'); simpl; auto).
  assert (R01 : sql_text_eq (location_id r0) (location_id r1) = false)
    by (apply (NoDup_sql_text_neq _ _ _ Nr); simpl; auto).
  clear Nb Nr.
  intros s0. subst s0.
  unfold run_loop, run_steps, outer_iteration, init_state. simpl.
  rewrite B01. simpl. rewrite B02, B12. simpl. rewrite R01. simpl.
  repeat split. eexists. repeat split.
Qed.


(** The listings of the round-robin example, with concrete candidates. *)
Lemma round_robin_10_1_10_witness :
  map stop_type
      (stops (run_steps 6 6
                (init_state (Examples.candidates "bus_stops" 10)
                            (Examples.candidates "trolley_stops" 1)
                            (Examples.candidates "rail_stations" 10) [])))
  = ["bus_stops"; "trolley_stops"; "bus_stops"; "rail_stations";
     "bus_stops"; "rail_stations"].
Proof.
  destruct (round_robin_10_1_10
              (Examples.candidates "bus_stops" 10)
              (Examples.candidates "trolley_stops" 1)
              (Examples.candidates "rail_stations" 10))
    as (_ & _ & _ & _ & s & Hs & Hm & _).
  - reflexivity.
  - reflexivity.
  - reflexivity.
  - vm_compute. repeat constructor; simpl; intuition discriminate.
  - vm_compute. repeat constructor; simpl; intuition discriminate.
  - vm_compute in Hs. inversion Hs; subst. reflexivity.
Defined.

(** A category whose fetched candidates are all stored already is drained
    without an insertion and stays in [beeg_data] with an empty list; the
    counter has not moved, so every later pass selects it again. *)
Lemma known_category_never_returns (cap fuel : nat)
    (bus trolley rail : list stop_record) (db : list row) :
  0 < cap ->
  Forall (fun c => stop_exists db "bus_stops" (location_id c) = true) bus ->
  store_fetched cap fuel bus trolley rail db = None.
Proof.
  intros Hcap Hbus. unfold store_fetched.
  assert (Hstuck : forall fuel',
             run_loop fuel' cap (init_state [] trolley rail db) = None).
  { apply run_loop_stuck. unfold outer_iteration, init_state. simpl.
    destruct cap as [|cap]; [lia|]. reflexivity. }
  destruct fuel as [|fuel]; [reflexivity|].
  simpl. unfold outer_iteration, init_state. simpl.
  destruct cap as [|cap]; [lia|]. simpl.
  destruct (inner_loop_cases "bus_stops" bus db)
    as [[E _]|(c & rest & _ & Hin & Hc)].
  - rewrite E. simpl. fold (init_state [] trolley rail db).
    now rewrite Hstuck.
  - rewrite Forall_forall in Hbus. rewrite (Hbus c Hin) in Hc. discriminate.
Qed.

Lemma known_category_never_returns_witness :
  store_fetched BATCH_SIZE 1000 (Examples.candidates "bus_stops" 3)
                (Examples.candidates "trolley_stops" 20)
                (Examples.candidates "rail_stations" 20)
                Examples.stops_once = None.
Proof.
  apply known_category_never_returns.
  - unfold BATCH_SIZE. lia.
  - vm_compute. repeat constructor.
Defined.

(** C1. The claim fails on the code: when the three fetches answer with
    empty listings (here a source that is down, which [fetch_septa_stops]
    turns into [[]]), [beeg_data] keeps its three keys, the counter stays
    at 0, and no number of passes lets the outer loop leave: the
    invocation returns for no amount of fuel. *)
Theorem store_septa_stops_outage_never_returns :
  forall (fuel : nat) (db : list row),
    store_septa_stops fuel Examples.septa_outage db = None.
Proof.
  intros fuel db. unfold store_septa_stops. simpl. unfold store_fetched.
  rewrite run_loop_stuck; reflexivity.
Qed.

(** What a returned invocation leaves: the old table followed by the rows
    it inserted, whose natural keys were not in the table and are pairwise
    distinct; it inserted at most [BATCH_SIZE] rows and handed back
    [None]. *)
Lemma store_septa_stops_returned (fuel : nat)
    (api : string -> response (list stop_record)) (db db' : list row)
    (v : pyval) :
  store_septa_stops fuel api db = Some (Returned (db', v)) ->
  v = PyNone
  /\ exists ins,
       db' = db ++ ins
       /\ length ins <= BATCH_SIZE
       /\ NoDup (natural_keys ins)
       /\ (forall k, In k (natural_keys ins) -> ~ In k (natural_keys db)).
Proof.
  unfold store_septa_stops, store_fetched.
  destruct (fetch_septa_stops (api "bus_stops")) as [bus|]; [|discriminate].
  destruct (fetch_septa_stops (api "trolley_stops")) as [trolley|];
    [|discriminate].
  destruct (fetch_septa_stops (api "rail_stations")) as [rail|];
    [|discriminate].
  destruct (run_loop fuel BATCH_SIZE (init_state bus trolley rail db))
    as [s|] eqn:E; [|discriminate].
  intros H. inversion H; subst; clear H. split; [reflexivity|].
  apply run_loop_run_steps in E. subst s.
  destruct (run_steps_inserted BATCH_SIZE fuel (init_state bus trolley rail db))
    as (ins & I1 & I2 & I3 & I4 & I5).
  simpl in I1, I2, I4, I5. exists ins. repeat split; auto.
  rewrite <- I2. apply I5. lia.
Qed.

(** C2. Idempotent stop insertion: when two invocations in sequence get
    the same responses from the source, the rows the two of them insert
    carry each natural key [(stop_type, stop_id)] at most once, and no
    natural key of a row of the second invocation is one of a row of the
    first. *)
Theorem stop_insertion_idempotent (fuel1 fuel2 : nat)
    (api : string -> response (list stop_record))
    (db db1 db2 : list row) (v1 v2 : pyval) :
  store_septa_stops fuel1 api db = Some (Returned (db1, v1)) ->
  store_septa_stops fuel2 api db1 = Some (Returned (db2, v2)) ->
  exists ins1 ins2,
    db1 = db ++ ins1
    /\ db2 = db1 ++ ins2
    /\ NoDup (natural_keys (ins1 ++ ins2))
    /\ (forall k, In k (natural_keys ins2) -> ~ In k (natural_keys ins1)).
Proof.
  intros H1 H2.
  apply store_septa_stops_returned in H1.
  destruct H1 as (_ & ins1 & E1 & _ & N1 & _).
  apply store_septa_stops_returned in H2.
  destruct H2 as (_ & ins2 & E2 & _ & N2 & D2).
  exists ins1, ins2. subst db1. split; [reflexivity|]. split; [assumption|].
  assert (D : forall k, In k (natural_keys ins2) ->
                        ~ In k (natural_keys ins1)).
  { intros k Hk Hin. apply (D2 k Hk). rewrite natural_keys_app.
    apply in_or_app. now right. }
  split; [|exact D].
  rewrite natural_keys_app.
  clear - N1 N2 D. induction (natural_keys ins1) as [|k l IH]; simpl.
  - assumption.
  - inversion N1; subst. constructor.
    + intros Hin. apply in_app_or in Hin. destruct Hin as [Hin|Hin]; [tauto|].
      apply (D k Hin). now left.
    + apply IH; [assumption|]. intros k' Hk' Hin. apply (D k' Hk'). now right.
Qed.

(** Two invocations against a source with 20 candidates per category. *)
Lemma stop_insertion_idempotent_witness :
  exists ins1 ins2,
    Examples.stops_once = [] ++ ins1
    /\ Examples.stops_twice = Examples.stops_once ++ ins2
    /\ NoDup (natural_keys (ins1 ++ ins2))
    /\ (forall k, In k (natural_keys ins2) -> ~ In k (natural_keys ins1)).
Proof.
  apply (stop_insertion_idempotent 30 30 (Examples.septa_source 20)
           [] Examples.stops_once Examples.stops_twice PyNone PyNone).
  - vm_compute. reflexivity.
  - vm_compute. reflexivity.
Defined.

(** The second invocation adds no known natural key at any point of its
    loop, whether or not the loop leaves. *)
Lemma second_invocation_adds_no_known_key (cap n : nat)
    (bus trolley rail : list stop_record) (db1 : list row) :
  exists ins2,
    stops (run_steps n cap (init_state bus trolley rail db1)) = db1 ++ ins2
    /\ NoDup (natural_keys ins2)
    /\ (forall k, In k (natural_keys ins2) -> ~ In k (natural_keys db1)).
Proof.
  destruct (run_steps_inserted cap n (init_state bus trolley rail db1))
    as (ins & I1 & _ & I3 & I4 & _).
  exists ins. auto.
Qed.

(** A candidate without an external id has no natural key; the existence
    check never finds it, and each invocation stores it anew. *)
Lemma anonymous_stop_stored_again :
  forall db, stop_exists db "bus_stops"
                         (location_id Examples.anonymous_stop) = false.
Proof.
  intros db. unfold stop_exists. induction db as [|r db IH]; simpl in *.
  - reflexivity.
  - rewrite IH. destruct (stop_id r); simpl; now rewrite andb_false_r.
Qed.

(** C9 fails as stated: against a source with one candidate per category
    the invocation inserts three rows and hands [None] back to its caller,
    not the count 3. *)
Lemma store_septa_stops_returns_no_count :
  exists db',
    store_septa_stops 4 (Examples.septa_source 1) []
      = Some (Returned (db', PyNone))
    /\ length db' = 3
    /\ PyNone <> PyInt 3.
Proof.
  eexists. split; [vm_compute; reflexivity|].
  split; [reflexivity|discriminate].
Qed.

(** C9, amended. A returned invocation hands back [None]: the function has
    no [return] statement. The count of the stops inserted during the
    invocation is what the counter [num_inserted] holds when the loop
    leaves; it stays inside the function. *)
Theorem store_septa_stops_returns_none (fuel : nat)
    (api : string -> response (list stop_record)) (db db' : list row)
    (v : pyval) :
  store_septa_stops fuel api db = Some (Returned (db', v)) ->
  v = PyNone
  /\ exists bus trolley rail s ins,
       run_loop fuel BATCH_SIZE (init_state bus trolley rail db) = Some s
       /\ db' = stops s
       /\ stops s = db ++ ins
       /\ num_inserted s = length ins.
Proof.
  unfold store_septa_stops, store_fetched.
  destruct (fetch_septa_stops (api "bus_stops")) as [bus|]; [|discriminate].
  destruct (fetch_septa_stops (api "trolley_stops")) as [trolley|];
    [|discriminate].
  destruct (fetch_septa_stops (api "rail_stations")) as [rail|];
    [|discriminate].
  destruct (run_loop fuel BATCH_SIZE (init_state bus trolley rail db))
    as [s|] eqn:E; [|discriminate].
  intros H. inversion H; subst; clear H. split; [reflexivity|].
  exists bus, trolley, rail, s.
  pose proof (run_loop_run_steps _ _ _ _ E) as Es.
  destruct (run_steps_inserted BATCH_SIZE fuel (init_state bus trolley rail db))
    as (ins & I1 & I2 & _).
  rewrite <- Es in I1, I2. simpl in I1, I2. exists ins. auto.
Qed.

Lemma store_septa_stops_returns_none_witness :
  PyNone = PyNone
  /\ exists bus trolley rail s ins,
       run_loop 4 BATCH_SIZE (init_state bus trolley rail []) = Some s
       /\ Examples.three_stops = stops s
       /\ stops s = [] ++ ins
       /\ num_inserted s = length ins.
Proof.
  apply (store_septa_stops_returns_none 4 (Examples.septa_source 1) []).
  vm_compute. reflexivity.
Defined.

End SeptaFacts.

(** * Facts about pois.py *)

Section PoisFacts.
Import Pois.

(** [fetch_locationiq_pois] returns whatever the response is. *)
Lemma fetch_locationiq_pois_returns (r : response (list poi)) :
  exists l, fetch_locationiq_pois r = Returned l.
Proof.
  unfold fetch_locationiq_pois.
  destruct (status_code r =? 200)%Z; [destruct (json r)|]; eauto.
Qed.

Lemma fetch_locationiq_pois_listing (api : locationiq) (sid : Z)
    (slat slon n : option string) :
  fetch_locationiq_pois (api slat slon (nth 2 POI_RADII 0%Z))
  = Returned (listing api (sid, slat, slon, n)).
Proof.
  unfold listing.
  destruct (fetch_locationiq_pois_returns (api slat slon (nth 2 POI_RADII 0%Z)))
    as [l E].
  now rewrite E.
Qed.

(** The table only grows: what the existence check finds stays found, and
    the count of a stop does not drop. *)
Lemma poi_exists_app (db ins : list PoisTable.row) (sid : Z)
    (d : option Z) (cat nm : option string) :
  poi_exists db sid d cat nm = true ->
  poi_exists (db ++ ins) sid d cat nm = true.
Proof.
  unfold poi_exists. rewrite existsb_app. intros ->. reflexivity.
Qed.

Lemma count_for_stop_app (db ins : list PoisTable.row) (sid : Z) :
  count_for_stop (db ++ ins) sid
  = count_for_stop db sid + count_for_stop ins sid.
Proof.
  unfold count_for_stop. now rewrite filter_app, length_app.
Qed.

(** A row with a distance, a category and a name is found by the check
    once it is inserted. *)
Lemma poi_exists_inserted (db : list PoisTable.row) (sid d : Z)
    (cat nm : string) :
  poi_exists (insert_poi db sid (Some d) (Some nm) (Some cat)) sid (Some d)
             (Some cat) (Some nm) = true.
Proof.
  unfold poi_exists, insert_poi. rewrite existsb_app. simpl.
  rewrite Z.eqb_refl, Z.eqb_refl, !String.eqb_refl. simpl.
  apply orb_true_r.
Qed.

(** The inner [for] loop appends the rows it inserts and counts them; it
    keeps the count within the cap; when it ends under the cap it has read
    every record, and each record that the check can find is in the table. *)
Lemma for_pois_data_inserted (cap : nat) (sid : Z) (pois_data : list poi)
    (db : list PoisTable.row) (c : nat) :
  exists ins,
    for_pois_data cap sid pois_data (db, c) = (db ++ ins, c + length ins)
    /\ (c < cap -> c + length ins <= cap)
    /\ (c + length ins < cap ->
        forall pd, In pd pois_data -> checkable pd = true ->
                   is_new (db ++ ins) sid pd = false).
Proof.
  revert db c. induction pois_data as [|pd rest IH]; intros db c.
  - exists []. simpl. rewrite app_nil_r, Nat.add_0_r.
    split; [reflexivity|]. split; [lia|]. intros _ pd [].
  - simpl.
    destruct (poi_exists db sid (poi_distance pd) (pcat pd) (pname pd)) eqn:E.
    + destruct (IH db c) as (ins & I1 & I2 & I3).
      exists ins. split; [exact I1|]. split; [exact I2|].
      intros Hc pd' [<-|Hin] Hd.
      * unfold is_new. now rewrite poi_exists_app.
      * now apply I3.
    + destruct (cap <=? c + 1) eqn:Ecap.
      * apply Nat.leb_le in Ecap.
        exists [PoisTable.mkRow (next_id (map PoisTable.id db)) sid
                                (poi_distance pd) (pcat pd) (pname pd)].
        simpl. split; [reflexivity|]. split; [lia|]. intros Hc. lia.
      * apply Nat.leb_gt in Ecap.
        destruct (IH (insert_poi db sid (poi_distance pd) (pname pd) (pcat pd))
                     (c + 1)) as (ins & I1 & I2 & I3).
        unfold insert_poi in *. rewrite <- app_assoc in *. simpl in *.
        eexists (_ :: ins). split; [rewrite I1; simpl; f_equal; lia|].
        simpl. split; [lia|].
        intros Hc pd' [<-|Hin] Hd.
        -- unfold is_new. unfold checkable in Hd.
           destruct (poi_distance pd) as [d|]; [|discriminate].
           destruct (pcat pd) as [cat|]; [|discriminate].
           destruct (pname pd) as [nm|]; [|discriminate].
           change (db ++ ?r :: ins) with (db ++ [r] ++ ins).
           rewrite app_assoc, poi_exists_app; [reflexivity|].
           apply poi_exists_inserted.
        -- apply I3; [lia|assumption|assumption].
Qed.

(** The outer [for] loop never raises, appends the rows it inserts and
    counts them, and keeps the count within the cap. When it ends under the
    cap, every stop of the list is saturated or has each record of its
    listing that the check can find in the table. *)
Lemma for_all_stops_inserted (cap : nat) (api : locationiq)
    (all_stops : list stop_tuple) (db : list PoisTable.row) (c : nat) :
  exists ins,
    for_all_stops cap api all_stops (db, c)
    = Returned (db ++ ins, c + length ins)
    /\ (c <= cap -> c + length ins <= cap)
    /\ (c + length ins < cap ->
        forall t, In t all_stops ->
          unsaturated (db ++ ins) t = false
          \/ forall pd, In pd (listing api t) -> checkable pd = true ->
                        is_new (db ++ ins) (tuple_id t) pd = false).
Proof.
  revert db c. induction all_stops as [|[[[sid slat] slon] n] rest IH];
    intros db c.
  - exists []. simpl. rewrite app_nil_r, Nat.add_0_r.
    split; [reflexivity|]. split; [lia|]. intros _ t [].
  - cbn [for_all_stops fst snd]. destruct (cap <=? c) eqn:Ecap.
    + apply Nat.leb_le in Ecap. exists []. simpl.
      rewrite app_nil_r, Nat.add_0_r.
      split; [reflexivity|]. split; [lia|]. intros Hc. lia.
    + apply Nat.leb_gt in Ecap.
      destruct (count_for_stop db sid <? 50) eqn:Esat.
      * rewrite (fetch_locationiq_pois_listing api sid slat slon n).
        set (t := (sid, slat, slon, n)).
        destruct (for_pois_data_inserted cap sid (listing api t) db c)
          as (ins1 & J1 & J2 & J3).
        rewrite J1.
        destruct (IH (db ++ ins1) (c + length ins1)) as (ins & I1 & I2 & I3).
        exists (ins1 ++ ins).
        rewrite app_assoc, length_app, Nat.add_assoc.
        split; [exact I1|]. split; [intros _; apply I2; lia|].
        intros Hc t' [<-|Hin]; [|now apply I3].
        right. intros pd Hpd Hd. unfold is_new.
        rewrite poi_exists_app; [reflexivity|].
        assert (Hnew : is_new (db ++ ins1) sid pd = false)
          by (apply J3; [lia|assumption|assumption]).
        unfold is_new in Hnew. now apply negb_false_iff in Hnew.
      * destruct (IH db c) as (ins & I1 & I2 & I3).
        exists ins. split; [exact I1|]. split; [exact I2|].
        intros Hc t' [<-|Hin]; [|now apply I3].
        left. unfold unsaturated. simpl.
        apply Nat.ltb_ge in Esat. apply Nat.ltb_ge.
        rewrite count_for_stop_app. lia.
Qed.


(** The existence check compares the distance with [=]: it finds no row
    for a record without a distance. *)
Lemma poi_exists_null (db : list PoisTable.row) (sid : Z)
    (cat nm : option string) :
  poi_exists db sid None cat nm = false.
Proof.
  unfold poi_exists. induction db as [|p db IH]; simpl; [reflexivity|].
  rewrite IH.
  destruct (PoisTable.stop_id p =? sid)%Z; destruct (PoisTable.distance p);
    reflexivity.
Qed.

(** Under the cap, the inner loop has inserted a row for every record
    without a distance. *)
Lemma for_pois_data_missing_distance (cap : nat) (sid : Z)
    (pois_data : list poi) (db : list PoisTable.row) (c : nat) :
  exists ins,
    for_pois_data cap sid pois_data (db, c) = (db ++ ins, c + length ins)
    /\ (c + length ins < cap ->
        forall pd, In pd pois_data -> poi_distance pd = None ->
          exists i, In (PoisTable.mkRow i sid None (pcat pd) (pname pd)) ins).
Proof.
  revert db c. induction pois_data as [|pd rest IH]; intros db c.
  - exists []. simpl. rewrite app_nil_r, Nat.add_0_r.
    split; [reflexivity|]. intros _ pd [].
  - simpl.
    destruct (poi_exists db sid (poi_distance pd) (pcat pd) (pname pd)) eqn:E.
    + destruct (IH db c) as (ins & I1 & I2).
      exists ins. split; [exact I1|].
      intros Hc pd' [<-|Hin] Hd; [|now apply I2].
      rewrite Hd, poi_exists_null in E. discriminate.
    + destruct (cap <=? c + 1) eqn:Ecap.
      * apply Nat.leb_le in Ecap. eexists [_]. simpl.
        split; [reflexivity|]. intros Hc. lia.
      * apply Nat.leb_gt in Ecap.
        destruct (IH (insert_poi db sid (poi_distance pd) (pname pd) (pcat pd))
                     (c + 1)) as (ins & I1 & I2).
        unfold insert_poi in *. rewrite <- app_assoc in *. simpl in *.
        eexists (_ :: ins). split; [rewrite I1; simpl; f_equal; lia|].
        simpl. intros Hc pd' [<-|Hin] Hd.
        -- rewrite Hd. eexists. left. reflexivity.
        -- destruct (I2 ltac:(lia) pd' Hin Hd) as [i Hi]. eauto.
Qed.

(** Under the cap, the outer loop has inserted a row for every record
    without a distance of every stop that is unsaturated at the end. *)
Lemma for_all_stops_missing_distance (cap : nat) (api : locationiq)
    (all_stops : list stop_tuple) (db : list PoisTable.row) (c : nat) :
  exists ins,
    for_all_stops cap api all_stops (db, c)
    = Returned (db ++ ins, c + length ins)
    /\ (c + length ins < cap ->
        forall t pd, In t all_stops -> unsaturated (db ++ ins) t = true ->
          In pd (listing api t) -> poi_distance pd = None ->
          exists i, In (PoisTable.mkRow i (tuple_id t) None (pcat pd)
                                        (pname pd)) ins).
Proof.
  revert db c. induction all_stops as [|[[[sid slat] slon] n] rest IH];
    intros db c.
  - exists []. simpl. rewrite app_nil_r, Nat.add_0_r.
    split; [reflexivity|]. intros _ t pd [].
  - cbn [for_all_stops fst snd]. destruct (cap <=? c) eqn:Ecap.
    + apply Nat.leb_le in Ecap. exists []. simpl.
      rewrite app_nil_r, Nat.add_0_r. split; [reflexivity|]. intros Hc. lia.
    + apply Nat.leb_gt in Ecap.
      destruct (count_for_stop db sid <? 50) eqn:Esat.
      * rewrite (fetch_locationiq_pois_listing api sid slat slon n).
        set (t := (sid, slat, slon, n)).
        destruct (for_pois_data_missing_distance cap sid (listing api t) db c)
          as (ins1 & J1 & J2).
        rewrite J1.
        destruct (IH (db ++ ins1) (c + length ins1)) as (ins & I1 & I2).
        exists (ins1 ++ ins).
        rewrite app_assoc, length_app, Nat.add_assoc.
        split; [exact I1|].
        intros Hc t' pd [<-|Hin] Hu Hpd Hd.
        -- destruct (J2 ltac:(lia) pd Hpd Hd) as [i Hi].
           exists i. apply in_or_app. now left.
        -- destruct (I2 Hc t' pd Hin Hu Hpd Hd) as [i Hi].
           exists i. apply in_or_app. now right.
      * destruct (IH db c) as (ins & I1 & I2).
        exists ins. split; [exact I1|].
        intros Hc t' pd [<-|Hin] Hu Hpd Hd; [|now apply (I2 Hc t' pd)].
        unfold unsaturated in Hu. simpl in Hu.
        apply Nat.ltb_ge in Esat. apply Nat.ltb_lt in Hu.
        rewrite count_for_stop_app in Hu. lia.
Qed.

(** *** The restart point *)

Lemma insert_desc_In (x y : Z) (l : list Z) :
  In y (insert_desc x l) <-> y = x \/ In y l.
Proof.
  induction l as [|z l IH]; simpl.
  - intuition.
  - destruct (z <? x)%Z; simpl; rewrite ?IH; intuition.
Qed.

Lemma sort_desc_In (y : Z) (l : list Z) : In y (sort_desc l) <-> In y l.
Proof.
  induction l as [|x l IH]; simpl; [tauto|].
  rewrite insert_desc_In, IH. intuition.
Qed.

Lemma insert_desc_descending (x : Z) (l : list Z) :
  descending l -> descending (insert_desc x l).
Proof.
  induction l as [|z l IH]; simpl.
  - intros _. split; [intros y []|exact I].
  - intros [Hz Hl]. destruct (z <? x)%Z eqn:E.
    + apply Z.ltb_lt in E. simpl. split; [|tauto].
      intros y [<-|Hy]; [lia|]. specialize (Hz y Hy). lia.
    + apply Z.ltb_ge in E. simpl. split; [|tauto].
      intros y Hy. apply insert_desc_In in Hy. destruct Hy as [->|Hy]; auto.
Qed.

Lemma sort_desc_descending (l : list Z) : descending (sort_desc l).
Proof.
  induction l as [|x l IH]; simpl; [exact I|].
  now apply insert_desc_descending.
Qed.

Lemma insert_desc_NoDup (x : Z) (l : list Z) :
  ~ In x l -> NoDup l -> NoDup (insert_desc x l).
Proof.
  induction l as [|z l IH]; simpl; intros Hx Hl.
  - constructor; [tauto|constructor].
  - destruct (z <? x)%Z.
    + constructor; [simpl; tauto|assumption].
    + inversion Hl; subst. constructor.
      * rewrite insert_desc_In. intuition.
      * apply IH; tauto.
Qed.

Lemma sort_desc_NoDup (l : list Z) : NoDup l -> NoDup (sort_desc l).
Proof.
  induction l as [|x l IH]; simpl; intros Hl; [constructor|].
  inversion Hl; subst. apply insert_desc_NoDup; [|tauto].
  now rewrite sort_desc_In.
Qed.

(** The stop id the query puts second is the second largest stop id of
    the [pois] table; there is none when the table has POIs of fewer than
    two stops. *)
Lemma second_to_last_stop_id_spec (db : list PoisTable.row) (target : Z) :
  second_to_last_stop_id db = Some target
  <-> exists top,
        In top (map PoisTable.stop_id db)
        /\ In target (map PoisTable.stop_id db)
        /\ (target < top)%Z
        /\ forall x, In x (map PoisTable.stop_id db) ->
                     x = top \/ (x <= target)%Z.
Proof.
  unfold second_to_last_stop_id, pois_stop_ids.
  set (ids := map PoisTable.stop_id db).
  pose proof (sort_desc_descending (nodup Z.eq_dec ids)) as Hd.
  pose proof (sort_desc_NoDup _ (NoDup_nodup Z.eq_dec ids)) as Hn.
  assert (Hin : forall x, In x (sort_desc (nodup Z.eq_dec ids)) <-> In x ids)
    by (intros x; rewrite sort_desc_In; apply nodup_In).
  destruct (sort_desc (nodup Z.eq_dec ids)) as [|a [|b rest]]; simpl.
  - split; [discriminate|]. intros (top & Ht & _). now apply Hin in Ht.
  - split; [discriminate|]. intros (top & Ht & Hg & Hlt & _).
    apply Hin in Ht, Hg. simpl in Ht, Hg. lia.
  - simpl in Hd. destruct Hd as (Ha & Hb & _).
    inversion Hn as [|? ? Na Nb]; subst. inversion Nb as [|? ? Nb' _]; subst.
    assert (Hab : (b < a)%Z).
    { assert (b <> a) by (intros ->; apply Na; now left).
      specialize (Ha b (or_introl eq_refl)). lia. }
    split.
    + intros E. inversion E; subst. exists a.
      split; [apply Hin; simpl; auto|]. split; [apply Hin; simpl; auto|].
      split; [exact Hab|]. intros x Hx. apply Hin in Hx.
      destruct Hx as [<-|[<-|Hx]]; [now left|right; lia|right; auto].
    + intros (top & Ht & Hg & Hlt & Hall). f_equal.
      assert (Ea : a = top).
      { destruct (Hall a) as [E|E]; [apply Hin; simpl; auto|exact E|].
        apply Hin in Ht. destruct Ht as [<-|Ht]; [reflexivity|].
        specialize (Ha top Ht). lia. }
      subst top.
      destruct (Hall b) as [E|E]; [apply Hin; simpl; auto|lia|].
      apply Hin in Hg. destruct Hg as [<-|[<-|Hg]]; [lia|reflexivity|].
      specialize (Hb target Hg). lia.
Qed.

(** The first index the comprehension finds is the position of the first
    stop with the target id. *)
Lemma indices_spec (all_stops : list stop_tuple) (target : Z) (i : nat) :
  match indices i all_stops target with
  | [] => ~ In target (map tuple_id all_stops)
  | j :: _ =>
      i <= j /\ j - i < length all_stops
      /\ exists t, nth_error all_stops (j - i) = Some t
                   /\ tuple_id t = target
  end.
Proof.
  revert i. induction all_stops as [|t rest IH]; intros i; simpl.
  - tauto.
  - destruct (tuple_id t =? target)%Z eqn:E.
    + apply Z.eqb_eq in E. rewrite Nat.sub_diag.
      split; [lia|]. split; [lia|]. exists t. simpl. tauto.
    + apply Z.eqb_neq in E. specialize (IH (S i)).
      destruct (indices (S i) rest target) as [|j js].
      * tauto.
      * destruct IH as (H1 & H2 & t' & H3 & H4).
        split; [lia|]. split; [lia|]. exists t'.
        replace (j - i) with (S (j - S i)) by lia. simpl. tauto.
Qed.

Lemma skipn_nth_error {A : Type} (l : list A) (k : nat) (t : A) :
  nth_error l k = Some t -> skipn k l = t :: skipn (S k) l.
Proof.
  revert l. induction k as [|k IH]; intros [|x l]; simpl; try discriminate.
  - intros E. now inversion E.
  - intros E. now rewrite (IH l E).
Qed.

Lemma rotation_head {A : Type} (l : list A) (k : nat) (t : A) :
  nth_error l k = Some t ->
  exists rest, skipn k l ++ firstn k l = t :: rest.
Proof.
  intros E. rewrite (skipn_nth_error l k t E). eexists. reflexivity.
Qed.


(** The visitation list is the list of all stops, rotated. *)
Lemma reorder_rotation (all_stops : list stop_tuple)
    (db : list PoisTable.row) :
  exists k, k <= length all_stops
            /\ reorder all_stops db
               = skipn k all_stops ++ firstn k all_stops.
Proof.
  unfold reorder.
  destruct (second_to_last_stop_id db) as [target|].
  - pose proof (indices_spec all_stops target 0) as H.
    destruct (indices 0 all_stops target) as [|j js].
    + exists 0. split; [lia|]. simpl. now rewrite app_nil_r.
    + exists j. split; [lia|reflexivity].
  - exists 0. split; [lia|]. simpl. now rewrite app_nil_r.
Qed.

Lemma reorder_In (all_stops : list stop_tuple) (db : list PoisTable.row)
    (t : stop_tuple) :
  In t (reorder all_stops db) <-> In t all_stops.
Proof.
  destruct (reorder_rotation all_stops db) as (k & _ & ->).
  rewrite in_app_iff.
  rewrite <- (firstn_skipn k all_stops) at 3. rewrite in_app_iff. tauto.
Qed.

(** [store_pois] never raises: it returns the table with the inserted rows
    appended and their count, which is within the cap; under the cap,
    every stop is saturated or has the records of its listing that carry a
    distance in the table. *)
Lemma store_pois_with_inserted (cap : nat) (api : locationiq)
    (stops : list StopsTable.row) (db : list PoisTable.row) :
  exists ins,
    store_pois_with cap api stops db = Returned (db ++ ins, length ins)
    /\ length ins <= cap
    /\ (length ins < cap ->
        forall t, In t (select_stops stops) ->
          unsaturated (db ++ ins) t = false
          \/ forall pd, In pd (listing api t) -> checkable pd = true ->
                        is_new (db ++ ins) (tuple_id t) pd = false).
Proof.
  unfold store_pois_with.
  destruct (for_all_stops_inserted cap api
              (reorder (select_stops stops) db) db 0)
    as (ins & I1 & I2 & I3).
  exists ins. simpl in *. split; [exact I1|]. split; [apply I2; lia|].
  intros Hc t Ht. apply I3; [exact Hc|]. now apply reorder_In.
Qed.

(** An invocation of [store_pois] that ends under the cap has inserted a
    row with a null distance for every record without a distance in the
    listing of every stop that it leaves unsaturated. *)
Lemma store_pois_inserts_missing_distance (api : locationiq)
    (stops : list StopsTable.row) (db db' : list PoisTable.row)
    (count : Z) :
  store_pois api stops db = Returned (db', PyInt count) ->
  (count < Z.of_nat BATCH_SIZE)%Z ->
  exists ins,
    db' = db ++ ins
    /\ forall t pd,
         In t (select_stops stops) -> unsaturated db' t = true ->
         In pd (listing api t) -> poi_distance pd = None ->
         exists i, In (PoisTable.mkRow i (tuple_id t) None (pcat pd)
                                       (pname pd)) ins.
Proof.
  unfold store_pois, store_pois_with.
  destruct (for_all_stops_missing_distance BATCH_SIZE api
              (reorder (select_stops stops) db) db 0) as (ins & I1 & I2).
  rewrite I1. simpl. intros E Hc. inversion E; subst; clear E.
  exists ins. split; [reflexivity|].
  intros t pd Ht. apply I2; [unfold BATCH_SIZE in *; simpl; lia|].
  now apply reorder_In.
Qed.

Lemma store_pois_inserts_missing_distance_witness :
  exists ins,
    Examples.pois_after Examples.poi_source_without_distance
                        Examples.one_stop []
    = [] ++ ins
    /\ forall t pd,
         In t (select_stops Examples.one_stop) ->
         unsaturated (Examples.pois_after Examples.poi_source_without_distance
                                          Examples.one_stop []) t = true ->
         In pd (listing Examples.poi_source_without_distance t) ->
         poi_distance pd = None ->
         exists i, In (PoisTable.mkRow i (tuple_id t) None (pcat pd)
                                       (pname pd)) ins.
Proof.
  apply (store_pois_inserts_missing_distance
           Examples.poi_source_without_distance Examples.one_stop [] _ 1).
  - vm_compute. reflexivity.
  - unfold BATCH_SIZE. lia.
Defined.

(** C3. Batch cap respected: at every point of its loop, and so when it
    returns, [store_septa_stops] has appended at most 25 rows to the
    [stops] table, whatever the listings and the table are; [store_pois]
    always returns, having appended to the [pois] table as many rows as the
    count it returns, which is at most 25, whatever the source answers and
    the tables hold. *)
Theorem batch_cap_respected :
  (forall (bus trolley rail : list Septa.stop_record)
          (db : list StopsTable.row) (n : nat),
      exists ins,
        Septa.stops (Septa.run_steps n Septa.BATCH_SIZE
                       (Septa.init_state bus trolley rail db)) = db ++ ins
        /\ length ins <= 25)
  /\ (forall (fuel : nat)
             (api : string -> response (list Septa.stop_record))
             (db : list StopsTable.row),
        match Septa.store_septa_stops fuel api db with
        | Some (Returned (db', _)) =>
            exists ins, db' = db ++ ins /\ length ins <= 25
        | Some (Raised _) => True
        | None => True
        end)
  /\ (forall (api : locationiq) (stops : list StopsTable.row)
             (db : list PoisTable.row),
        exists ins,
          store_pois api stops db
          = Returned (db ++ ins, PyInt (Z.of_nat (length ins)))
          /\ length ins <= 25).
Proof.
  split; [|split].
  - intros bus trolley rail db n.
    destruct (run_steps_inserted Septa.BATCH_SIZE n
                (Septa.init_state bus trolley rail db))
      as (ins & I1 & I2 & _ & _ & I5).
    exists ins. split; [exact I1|].
    simpl in I2, I5. rewrite I2 in I5. apply I5.
    unfold Septa.BATCH_SIZE. lia.
  - intros fuel api db.
    destruct (Septa.store_septa_stops fuel api db) as [[[db' v]|e]|] eqn:E;
      try exact I.
    apply store_septa_stops_returned in E.
    destruct E as (_ & ins & E1 & E2 & _). exists ins. split; assumption.
  - intros api stops db. unfold store_pois.
    destruct (store_pois_with_inserted BATCH_SIZE api stops db)
      as (ins & I1 & I2 & _).
    rewrite I1. exists ins. split; [reflexivity|exact I2].
Qed.

(** C4 fails as stated. With one stop and a source that has exactly 25
    ATMs around it, the invocation returns 25, which is not less than the
    cap, and leaves no unsaturated stop with a new POI. *)
Lemma exhaustion_signal_at_the_cap :
  exists db',
    store_pois (Examples.poi_source 25) Examples.one_stop []
    = Returned (db', PyInt 25)
    /\ fetchable_remains (Examples.poi_source 25) Examples.one_stop db'
       = false
    /\ ~ (25 < Z.of_nat BATCH_SIZE)%Z.
Proof.
  eexists. split; [vm_compute; reflexivity|].
  split; [vm_compute; reflexivity|]. unfold BATCH_SIZE. lia.
Qed.

(** A record without a distance is new to every check: the invocation
    returns 1, under the cap, and the stop is still fetchable. *)
Lemma exhaustion_signal_without_distance :
  exists db',
    store_pois Examples.poi_source_without_distance Examples.one_stop []
    = Returned (db', PyInt 1)
    /\ fetchable_remains Examples.poi_source_without_distance
                         Examples.one_stop db' = true.
Proof.
  eexists. split; vm_compute; reflexivity.
Qed.

(** A record whose name is null is new to every check as well: the
    invocation returns 1, and 1 again when it is repeated. *)
Lemma exhaustion_signal_with_null_name :
  exists db' db'',
    store_pois Examples.poi_source_with_null_name Examples.one_stop []
    = Returned (db', PyInt 1)
    /\ store_pois Examples.poi_source_with_null_name Examples.one_stop db'
       = Returned (db'', PyInt 1)
    /\ fetchable_remains Examples.poi_source_with_null_name
                         Examples.one_stop db'' = true.
Proof.
  do 2 eexists. repeat split; vm_compute; reflexivity.
Qed.

(** C4, amended. When [store_pois] returns a count under the cap and every
    record of the listings can be found by the existence check once it is
    stored (it carries a distance, and neither its name nor its class is
    null), no unsaturated stop with a record that the check does not find
    remains. (A count equal to the cap says nothing about what
    remains.) *)
Theorem exhaustion_signal_sound (api : locationiq)
    (stops : list StopsTable.row) (db db' : list PoisTable.row)
    (count : Z) :
  store_pois api stops db = Returned (db', PyInt count) ->
  (count < Z.of_nat BATCH_SIZE)%Z ->
  (forall t pd, In t (select_stops stops) -> In pd (listing api t) ->
                checkable pd = true) ->
  fetchable_remains api stops db' = false.
Proof.
  unfold store_pois.
  destruct (store_pois_with_inserted BATCH_SIZE api stops db)
    as (ins & I1 & I2 & I3).
  rewrite I1. intros E Hc Hd. inversion E; subst; clear E.
  assert (Hlt : length ins < BATCH_SIZE) by lia.
  unfold fetchable_remains.
  apply not_true_is_false. intros Hex.
  apply existsb_exists in Hex. destruct Hex as (t & Ht & Hf).
  unfold fetchable in Hf. apply andb_true_iff in Hf. destruct Hf as [Hu Hn].
  destruct (I3 Hlt t Ht) as [Hs|Hs]; [congruence|].
  apply existsb_exists in Hn. destruct Hn as (pd & Hpd & Hnew).
  rewrite (Hs pd Hpd (Hd t pd Ht Hpd)) in Hnew. discriminate.
Qed.

Lemma exhaustion_signal_sound_witness :
  fetchable_remains (Examples.poi_source 3) Examples.three_bus_stops
    (Examples.pois_after (Examples.poi_source 3) Examples.three_bus_stops [])
  = false.
Proof.
  apply (exhaustion_signal_sound (Examples.poi_source 3)
           Examples.three_bus_stops [] _ 9).
  - vm_compute. reflexivity.
  - unfold BATCH_SIZE. lia.
  - intros t pd Ht Hpd.
    assert (Hl : listing (Examples.poi_source 3) t = Examples.atms 3)
      by (destruct t as [[[? ?] ?] ?]; reflexivity).
    rewrite Hl in Hpd. simpl in Hpd.
    destruct Hpd as [<-|[<-|[<-|[]]]]; reflexivity.
Defined.

(** C5 fails as stated. Over three stops, a first invocation finds the
    source down around stop 1 and stores an ATM for stops 2 and 3; a second
    invocation stores the ATM of stop 1. Stop 1 is then the most recently
    touched stop and stop 3 the second most recently touched one, but the
    next invocation starts its visit at stop 2. *)
Lemma restart_point_not_by_recency :
  store_pois Examples.poi_source_down_at_first Examples.three_bus_stops []
  = Returned (Examples.pois_first_run, PyInt 2)
  /\ store_pois (Examples.poi_source 1) Examples.three_bus_stops
               Examples.pois_first_run
     = Returned (Examples.pois_second_run, PyInt 1)
  /\ map PoisTable.stop_id Examples.pois_second_run = [2; 3; 1]%Z
  /\ spec_most_recent_stop Examples.pois_second_run = Some 1%Z
  /\ spec_restart_point Examples.pois_second_run = Some 3%Z
  /\ map tuple_id (reorder (select_stops Examples.three_bus_stops)
                           Examples.pois_second_run) = [2; 3; 1]%Z.
Proof.
  repeat split; vm_compute; reflexivity.
Qed.

(** C5, amended. At the start of an invocation the POI batcher takes the
    two largest stop ids of the [pois] table and chooses the second largest
    as the restart point: [target] is chosen exactly when it is in the
    table, under a larger stop id [top] of the table, with no other stop id
    of the table above it. The visitation list is the list of all stops
    rotated (it wraps around and covers every stop); it begins at the stop
    with the chosen id when there is one, and is the list of all stops
    unchanged when the table holds POIs of fewer than two stops or the
    chosen id is the id of no stop. *)
Theorem restart_at_second_largest_stop_id (stops : list StopsTable.row)
    (db : list PoisTable.row) :
  let all_stops := select_stops stops in
  let ids := map PoisTable.stop_id db in
  (exists k, k <= length all_stops
             /\ reorder all_stops db
                = skipn k all_stops ++ firstn k all_stops)
  /\ (forall target,
        second_to_last_stop_id db = Some target
        <-> exists top,
              In top ids /\ In target ids /\ (target < top)%Z
              /\ forall x, In x ids -> x = top \/ (x <= target)%Z)
  /\ (forall target,
        second_to_last_stop_id db = Some target ->
        In target (map tuple_id all_stops) ->
        exists t rest, reorder all_stops db = t :: rest
                       /\ tuple_id t = target)
  /\ (forall target,
        second_to_last_stop_id db = Some target ->
        ~ In target (map tuple_id all_stops) ->
        reorder all_stops db = all_stops)
  /\ (second_to_last_stop_id db = None -> reorder all_stops db = all_stops).
Proof.
  intros all_stops ids.
  split; [apply reorder_rotation|].
  split; [intros target; apply second_to_last_stop_id_spec|].
  unfold reorder. split; [|split].
  - intros target -> Hin.
    pose proof (indices_spec all_stops target 0) as H.
    destruct (indices 0 all_stops target) as [|j js]; [tauto|].
    destruct H as (_ & _ & t & Ht & Hid).
    rewrite Nat.sub_0_r in Ht.
    destruct (rotation_head all_stops j t Ht) as [rest Hrest].
    exists t, rest. tauto.
  - intros target -> Hin.
    pose proof (indices_spec all_stops target 0) as H.
    destruct (indices 0 all_stops target) as [|j js]; [reflexivity|].
    destruct H as (_ & _ & t & Ht & Hid). exfalso. apply Hin.
    rewrite <- Hid. apply in_map. eapply nth_error_In. exact Ht.
  - intros ->. reflexivity.
Qed.

(** The restart point of the example: stop 2, the second largest stop id. *)
Lemma restart_at_second_largest_stop_id_witness :
  exists t rest,
    reorder (select_stops Examples.three_bus_stops)
            Examples.pois_second_run = t :: rest
    /\ tuple_id t = 2%Z.
Proof.
  destruct (restart_at_second_largest_stop_id Examples.three_bus_stops
              Examples.pois_second_run) as (_ & _ & H & _).
  apply (H 2%Z).
  - vm_compute. reflexivity.
  - vm_compute. auto.
Defined.

(** C7, the part that holds: a response that is not a 200 is an empty
    listing for both fetchers, and [fetch_locationiq_pois] turns a body
    that does not parse into an empty listing. *)
Lemma fetchers_absorb_failures :
  (forall r, status_code r <> 200%Z ->
             Septa.fetch_septa_stops r = Returned [])
  /\ (forall r, status_code r <> 200%Z ->
                fetch_locationiq_pois r = Returned [])
  /\ (forall r, status_code r = 200%Z -> json r = None ->
                fetch_locationiq_pois r = Returned []).
Proof.
  unfold Septa.fetch_septa_stops, fetch_locationiq_pois.
  split; [|split].
  - intros r H. apply Z.eqb_neq in H. now rewrite H.
  - intros r H. apply Z.eqb_neq in H. now rewrite H.
  - intros r H1 H2. now rewrite H1, H2.
Qed.

(** C7 fails on the code: [fetch_septa_stops] calls [r.json()] outside of
    any [try], so a 200 response whose body does not parse raises to the
    caller, and [store_septa_stops] with it, where [fetch_locationiq_pois]
    returns an empty listing. *)
Theorem fetch_septa_stops_raises_on_garbled_body :
  Septa.fetch_septa_stops Examples.septa_garbled = Raised JSONDecodeError
  /\ (forall fuel db,
        Septa.store_septa_stops fuel (fun _ => Examples.septa_garbled) db
        = Some (Raised JSONDecodeError))
  /\ fetch_locationiq_pois (mkResponse 200 None) = Returned [].
Proof.
  repeat split.
Qed.

End PoisFacts.

(** * Facts about the aggregator *)

Section DictFacts.
Variables K V : Type.
Variable eqb : K -> K -> bool.
Hypothesis eqb_eq : forall a b, eqb a b = true <-> a = b.

Lemma eqb_refl_true (a : K) : eqb a a = true.
Proof. now apply eqb_eq. Qed.

Lemma dict_get_set (d : dict K V) (k k' : K) (v : V) :
  dict_get eqb (dict_set eqb d k v) k'
  = if eqb k k' then Some v else dict_get eqb d k'.
Proof.
  induction d as [|[k0 v0] d IH]; simpl.
  - reflexivity.
  - destruct (eqb k0 k) eqn:E0; simpl.
    + apply eqb_eq in E0. subst k0. destruct (eqb k k'); reflexivity.
    + rewrite IH. destruct (eqb k0 k') eqn:E1; [|reflexivity].
      apply eqb_eq in E1. subst k0. destruct (eqb k k') eqn:E2; [|reflexivity].
      apply eqb_eq in E2. subst k'. rewrite eqb_refl_true in E0. discriminate.
Qed.

Lemma dict_get_In (d : dict K V) (k : K) (v : V) :
  dict_get eqb d k = Some v -> In (k, v) d.
Proof.
  induction d as [|[k0 v0] d IH]; simpl; [discriminate|].
  destruct (eqb k0 k) eqn:E.
  - apply eqb_eq in E. intros H. inversion H; subst. now left.
  - intros H. right. now apply IH.
Qed.

Lemma In_dict_get (d : dict K V) (k : K) (v : V) :
  NoDup (keys d) -> In (k, v) d -> dict_get eqb d k = Some v.
Proof.
  unfold keys. induction d as [|[k0 v0] d IH]; simpl; [tauto|].
  intros Hn [H|H].
  - inversion H; subst. now rewrite eqb_refl_true.
  - inversion Hn; subst. destruct (eqb k0 k) eqn:E.
    + apply eqb_eq in E. subst k0. exfalso. apply H2.
      change k with (fst (k, v)). now apply in_map.
    + now apply IH.
Qed.

Lemma dict_set_keys (d : dict K V) (k : K) (v : V) :
  keys (dict_set eqb d k v)
  = if existsb (fun k0 => eqb k0 k) (keys d) then keys d else keys d ++ [k].
Proof.
  unfold keys. induction d as [|[k0 v0] d IH]; simpl; [reflexivity|].
  destruct (eqb k0 k); simpl; [reflexivity|].
  rewrite IH. now destruct (existsb (fun k1 => eqb k1 k) (map fst d)).
Qed.

Lemma dict_set_NoDup (d : dict K V) (k : K) (v : V) :
  NoDup (keys d) -> NoDup (keys (dict_set eqb d k v)).
Proof.
  intros Hn. rewrite dict_set_keys.
  destruct (existsb (fun k0 => eqb k0 k) (keys d)) eqn:E; [assumption|].
  apply NoDup_app; [assumption|constructor; [intros []|constructor]|].
  intros x Hx [<-|[]].
  assert (existsb (fun k0 => eqb k0 k) (keys d) = true)
    by (apply existsb_exists; exists k; split;
        [assumption|apply eqb_refl_true]).
  congruence.
Qed.

Lemma dict_get_map_values {W : Type} (f : V -> W) (d : dict K V) (k : K) :
  dict_get eqb (map (fun kv => (fst kv, f (snd kv))) d) k
  = option_map f (dict_get eqb d k).
Proof.
  induction d as [|[k0 v0] d IH]; simpl; [reflexivity|].
  now destruct (eqb k0 k).
Qed.

End DictFacts.

Section StatsFacts.
Import Stats.

Lemma name_eqb_eq (a b : option string) : name_eqb a b = true <-> a = b.
Proof.
  destruct a as [x|], b as [y|]; simpl; try (split; congruence).
  rewrite String.eqb_eq. split; congruence.
Qed.

Lemma unique_of_set (seen : list entry) (u : dict (option string) nat)
    (name : option string) (c : nat) :
  unique_of seen u ->
  (forall c0, dict_get name_eqb u name = Some c0 -> c0 < c) ->
  unique_of (seen ++ [(name, c)]) (dict_set name_eqb u name c).
Proof.
  intros (Hn & Hmax & Hdom) Hlt.
  split; [now apply dict_set_NoDup; [apply name_eqb_eq|]|]. split.
  - intros name' c'. rewrite (dict_get_set _ _ _ name_eqb_eq).
    destruct (name_eqb name name') eqn:En.
    + apply name_eqb_eq in En. subst name'. intros H. inversion H; subst.
      split; [apply in_or_app; right; now left|].
      intros c'' Hin. apply in_app_or in Hin.
      destruct Hin as [Hin|[Hin|[]]]; [|inversion Hin; lia].
      destruct (Hdom name c'' Hin) as [c0 Hc0].
      destruct (Hmax name c0 Hc0) as [_ Hle].
      specialize (Hle c'' Hin). specialize (Hlt c0 Hc0). lia.
    + intros H. destruct (Hmax name' c' H) as [H1 H2].
      split; [apply in_or_app; now left|].
      intros c'' Hin. apply in_app_or in Hin.
      destruct Hin as [Hin|[Hin|[]]]; [now apply H2|].
      inversion Hin; subst.
      rewrite (proj2 (name_eqb_eq _ _) eq_refl) in En. discriminate.
  - intros name' c' Hin. rewrite (dict_get_set _ _ _ name_eqb_eq).
    destruct (name_eqb name name') eqn:En; [eauto|].
    apply in_app_or in Hin. destruct Hin as [Hin|[Hin|[]]]; [eauto|].
    inversion Hin; subst.
    rewrite (proj2 (name_eqb_eq _ _) eq_refl) in En. discriminate.
Qed.

Lemma unique_of_keep (seen : list entry) (u : dict (option string) nat)
    (name : option string) (c c0 : nat) :
  unique_of seen u ->
  dict_get name_eqb u name = Some c0 -> c <= c0 ->
  unique_of (seen ++ [(name, c)]) u.
Proof.
  intros (Hn & Hmax & Hdom) E Hge.
  split; [exact Hn|]. split.
  - intros name' c' H. destruct (Hmax name' c' H) as [H1 H2].
    split; [apply in_or_app; now left|].
    intros c'' Hin. apply in_app_or in Hin.
    destruct Hin as [Hin|[Hin|[]]]; [now apply H2|].
    inversion Hin; subst. rewrite E in H. inversion H; subst. exact Hge.
  - intros name' c' Hin. apply in_app_or in Hin.
    destruct Hin as [Hin|[Hin|[]]]; [eauto|]. inversion Hin; subst. eauto.
Qed.

Lemma unique_step_keeps (seen : list entry) (u : dict (option string) nat)
    (e : entry) :
  unique_of seen u -> unique_of (seen ++ [e]) (unique_step u e).
Proof.
  destruct e as [name c]. intros H. unfold unique_step.
  destruct (dict_get name_eqb u name) as [c0|] eqn:E.
  - destruct (Nat.ltb_spec c0 c) as [Hlt|Hge].
    + apply unique_of_set; [exact H|]. intros c1 E1.
      rewrite E in E1. inversion E1; subst. exact Hlt.
    + now apply (unique_of_keep seen u name c c0).
  - apply unique_of_set; [exact H|]. intros c1 E1.
    rewrite E in E1. discriminate.
Qed.

Lemma fold_unique_step (l seen : list entry)
    (u : dict (option string) nat) :
  unique_of seen u -> unique_of (seen ++ l) (fold_left unique_step l u).
Proof.
  revert seen u. induction l as [|e l IH]; intros seen u H; simpl.
  - now rewrite app_nil_r.
  - replace (seen ++ e :: l) with ((seen ++ [e]) ++ l)
      by (now rewrite <- app_assoc).
    apply IH. now apply unique_step_keeps.
Qed.

Lemma dedup_unique_of (l : list entry) : unique_of l (dedup l).
Proof.
  unfold dedup. apply (fold_unique_step l [] []).
  split; [constructor|]. split; [discriminate|intros ? ? []].
Qed.


Lemma string_eqb_eq (a b : string) : String.eqb a b = true <-> a = b.
Proof. apply String.eqb_eq. Qed.

(** After the organizing loop, a type's list holds the entries of the
    query for that type, in the order of the query. *)
Lemma organize_fold (rows : list (string * option string * nat))
    (d : dict string (list entry)) (stype : string) :
  dict_get String.eqb
    (fold_left
       (fun d row =>
          let '(stop_type, name, c) := row in
          let l := match dict_get String.eqb d stop_type with
                   | Some l => l
                   | None => []
                   end in
          dict_set String.eqb d stop_type (l ++ [(name, c)]))
       rows d) stype
  = match entries_of_type stype rows with
    | [] => dict_get String.eqb d stype
    | l => Some (match dict_get String.eqb d stype with
                 | Some l0 => l0
                 | None => []
                 end ++ l)
    end.
Proof.
  revert d. induction rows as [|[[ty name] c] rows IH]; intros d.
  - reflexivity.
  - cbn [fold_left]. rewrite IH. unfold entries_of_type.
    cbn [filter map fst snd].
    rewrite (dict_get_set _ _ _ string_eqb_eq).
    destruct (String.eqb ty stype) eqn:E.
    + apply String.eqb_eq in E. subst ty. cbn [map fst snd].
      destruct (map _ (filter _ rows)) as [|e l].
      * reflexivity.
      * now rewrite <- app_assoc.
    + reflexivity.
Qed.

Lemma organize_get (rows : list (string * option string * nat))
    (stype : string) :
  dict_get String.eqb (organize rows) stype
  = match entries_of_type stype rows with
    | [] => None
    | l => Some l
    end.
Proof.
  unfold organize. rewrite organize_fold. simpl.
  now destruct (entries_of_type stype rows).
Qed.

(** The entries of a type are the names and counts of its stops. *)
Lemma entries_of_type_In (stops : list StopsTable.row)
    (db : list PoisTable.row) (radius : Z) (stype : string) (e : entry) :
  In e (entries_of_type stype (query stops db radius))
  <-> exists s, In s stops /\ StopsTable.stop_type s = stype
                /\ e = (StopsTable.name s,
                        poi_count db (StopsTable.id s) radius).
Proof.
  unfold entries_of_type, query. rewrite in_map_iff. split.
  - intros ([[ty name] c] & <- & Hin). apply filter_In in Hin.
    destruct Hin as [Hin Hty]. apply in_map_iff in Hin.
    destruct Hin as (s & Hs & Hin). inversion Hs; subst.
    simpl in Hty. apply String.eqb_eq in Hty. exists s. auto.
  - intros (s & Hin & Hty & ->).
    exists (StopsTable.stop_type s, StopsTable.name s,
            poi_count db (StopsTable.id s) radius).
    split; [reflexivity|]. apply filter_In. split.
    + apply in_map_iff. exists s. auto.
    + simpl. now apply String.eqb_eq.
Qed.

(** C8. Name dedup keeps max: for a stored stop [s] and a threshold, the
    list the aggregator keeps for the type of [s] after deduplication has
    exactly one entry with the display name of [s]; its count is the POI
    count of a stop of that type and name, and no stop of that type and
    name has a larger one. *)
Theorem name_dedup_keeps_max (stops : list StopsTable.row)
    (db : list PoisTable.row) (radius : Z) (s : StopsTable.row) :
  In s stops ->
  exists entries c,
    dict_get String.eqb (deduplicated stops db radius)
             (StopsTable.stop_type s) = Some entries
    /\ NoDup (map fst entries)
    /\ In (StopsTable.name s, c) entries
    /\ (forall c', In (StopsTable.name s, c') entries -> c' = c)
    /\ (exists s', In s' stops
                   /\ StopsTable.stop_type s' = StopsTable.stop_type s
                   /\ StopsTable.name s' = StopsTable.name s
                   /\ poi_count db (StopsTable.id s') radius = c)
    /\ (forall s', In s' stops ->
                   StopsTable.stop_type s' = StopsTable.stop_type s ->
                   StopsTable.name s' = StopsTable.name s ->
                   poi_count db (StopsTable.id s') radius <= c).
Proof.
  intros Hs.
  set (stype := StopsTable.stop_type s).
  set (l := entries_of_type stype (query stops db radius)).
  assert (Hl : In (StopsTable.name s, poi_count db (StopsTable.id s) radius) l)
    by (apply entries_of_type_In; exists s; auto).
  destruct (dedup_unique_of l) as (Hn & Hmax & Hdom).
  destruct (Hdom _ _ Hl) as [c Hc].
  destruct (Hmax _ _ Hc) as [Hin Hle].
  exists (dedup l), c.
  split.
  { unfold deduplicated. rewrite dict_get_map_values, organize_get.
    fold l. destruct l; [destruct Hl|reflexivity]. }
  split; [exact Hn|].
  split; [eapply dict_get_In; [apply name_eqb_eq|exact Hc]|].
  split.
  { intros c' Hc'.
    apply (In_dict_get _ _ _ name_eqb_eq) in Hc'; [|exact Hn]. congruence. }
  split.
  - apply entries_of_type_In in Hin. destruct Hin as (s' & H1 & H2 & H3).
    inversion H3; subst. exists s'. auto.
  - intros s' H1 H2 H3. apply Hle. rewrite <- H3.
    apply entries_of_type_In. exists s'. auto.
Qed.

(** Two stops named Main St with 2 and 7 ATMs collapse to one entry with
    count 7. *)
Lemma name_dedup_keeps_max_witness :
  exists entries c,
    dict_get String.eqb
      (deduplicated Examples.main_st_stops Examples.main_st_pois 416)
      "bus_stops" = Some entries
    /\ NoDup (map fst entries)
    /\ In (Some "Main St", c) entries
    /\ (forall c', In (Some "Main St", c') entries -> c' = c)
    /\ (exists s', In s' Examples.main_st_stops
                   /\ StopsTable.stop_type s' = "bus_stops"
                   /\ StopsTable.name s' = Some "Main St"
                   /\ poi_count Examples.main_st_pois (StopsTable.id s') 416
                      = c)
    /\ (forall s', In s' Examples.main_st_stops ->
                   StopsTable.stop_type s' = "bus_stops" ->
                   StopsTable.name s' = Some "Main St" ->
                   poi_count Examples.main_st_pois (StopsTable.id s') 416
                   <= c).
Proof.
  apply (name_dedup_keeps_max Examples.main_st_stops Examples.main_st_pois
           416 (Examples.bus_stop 1 "39.1")).
  simpl. auto.
Defined.

Example main_st_collapses :
  query Examples.main_st_stops Examples.main_st_pois 416
  = [("bus_stops", Some "Main St", 2); ("bus_stops", Some "Main St", 7)]
  /\ deduplicated Examples.main_st_stops Examples.main_st_pois 416
     = [("bus_stops", [(Some "Main St", 7)])]
  /\ map (fun r => report_section
                     (data_by_type Examples.main_st_stops
                                   Examples.main_st_pois r) "bus_stops")
         POI_RADII
     = [mkSection [(Some "Main St", 7)] [(Some "Main St", 7)];
        mkSection [(Some "Main St", 7)] [(Some "Main St", 7)];
        mkSection [(Some "Main St", 7)] [(Some "Main St", 7)]].
Proof.
  repeat split; vm_compute; reflexivity.
Qed.

(** *** Rows without a distance *)

Lemma poi_count_app (db ins : list PoisTable.row) (sid radius : Z) :
  poi_count (db ++ ins) sid radius
  = poi_count db sid radius + poi_count ins sid radius.
Proof.
  unfold poi_count. now rewrite filter_app, length_app.
Qed.


(** One step of the insertion loop on a record without ["distance"]: the
    existence check cannot find it, so its row is inserted whatever the
    table holds, with a null distance and the name and the category of the
    record (the sentinels when the keys are absent), and the loop goes on
    or breaks at the cap with one more insertion counted. The row counts
    in the count that [store_pois] compares with 50; the aggregator counts
    it for no stop at no threshold. *)
Lemma missing_distance_step (cap : nat) (sid : Z)
    (nm cls : Pois.field) (rest : list Pois.poi)
    (db : list PoisTable.row) (c : nat) :
  let pd := Pois.mkPoi None nm cls in
  let r := PoisTable.mkRow (next_id (map PoisTable.id db)) sid None
                           (Pois.pcat pd) (Pois.pname pd) in
  Pois.poi_exists db sid (Pois.poi_distance pd) (Pois.pcat pd)
                  (Pois.pname pd) = false
  /\ Pois.pname (Pois.mkPoi None Pois.Absent cls) = Some "Unknown Name"
  /\ Pois.pcat (Pois.mkPoi None nm Pois.Absent) = Some "Unknown Category"
  /\ Pois.for_pois_data cap sid (pd :: rest) (db, c)
     = (if cap <=? c + 1 then (db ++ [r], c + 1)
        else Pois.for_pois_data cap sid rest (db ++ [r], c + 1))
  /\ Pois.count_for_stop (db ++ [r]) sid = Pois.count_for_stop db sid + 1
  /\ (forall stop radius,
        poi_count (db ++ [r]) stop radius = poi_count db stop radius)
  /\ (forall stops radius,
        query stops (db ++ [r]) radius = query stops db radius)
  /\ (forall stops, calculate_data stops (db ++ [r]) = calculate_data stops db).
Proof.
  intros pd r.
  assert (Hex : Pois.poi_exists db sid None (Pois.pcat pd) (Pois.pname pd)
                = false) by apply poi_exists_null.
  assert (Hcount : forall stop radius,
             poi_count (db ++ [r]) stop radius = poi_count db stop radius).
  { intros stop radius. rewrite poi_count_app. unfold poi_count. simpl.
    rewrite andb_false_r. simpl. lia. }
  assert (Hquery : forall stops radius,
             query stops (db ++ [r]) radius = query stops db radius).
  { intros stops radius. unfold query. apply map_ext. intros s.
    now rewrite Hcount. }
  split; [exact Hex|]. split; [reflexivity|]. split; [reflexivity|]. split.
  { cbn [Pois.for_pois_data]. cbn [Pois.poi_distance pd]. rewrite Hex.
    reflexivity. }
  split.
  { rewrite count_for_stop_app. unfold Pois.count_for_stop. simpl.
    now rewrite Z.eqb_refl. }
  split; [exact Hcount|]. split; [exact Hquery|].
  intros stops. unfold calculate_data, data_by_type, deduplicated.
  apply map_ext. intros radius. now rewrite Hquery.
Qed.

End StatsFacts.

(** * More about septa.py: progress, provenance, repeated invocations *)

Section SeptaProgress.
Import StopsTable Septa.

Lemma stop_exists_insert (db : list row) (stype stype' : string)
    (c : stop_record) (x : option string) :
  stop_exists (insert_stop db stype c) stype' x
  = stop_exists db stype' x
    || (String.eqb stype stype' && sql_text_eq (location_id c) x).
Proof.
  unfold stop_exists, insert_stop. rewrite existsb_app. simpl.
  now rewrite orb_false_r.
Qed.

(** An insertion in one category leaves the candidates of the others new. *)
Lemma all_new_other (db : list row) (stype stype' : string)
    (c : stop_record) (l : list stop_record) :
  stype <> stype' ->
  all_new db stype' l -> all_new (insert_stop db stype c) stype' l.
Proof.
  intros Hne. apply String.eqb_neq in Hne.
  induction l as [|c' l IH]; simpl; [tauto|].
  intros (H1 & H2 & H3). rewrite stop_exists_insert, H1, Hne. simpl.
  tauto.
Qed.

(** Once the first candidate is inserted, the ones behind it are new. *)
Lemma all_new_tail (db : list row) (stype : string) (c : stop_record)
    (rest : list stop_record) :
  all_new db stype (c :: rest) ->
  all_new (insert_stop db stype c) stype rest.
Proof.
  simpl. intros (_ & Hc & Hrest).
  induction rest as [|c' rest IH]; simpl; [exact I|].
  simpl in Hrest. destruct Hrest as (H1 & H2 & H3).
  inversion Hc as [|? ? Hc' Hcrest]; subst.
  rewrite stop_exists_insert, H1, Hc', andb_false_r. simpl.
  split; [reflexivity|]. split; [exact H2|]. now apply IH.
Qed.

Lemma In_dict_set (d : dict string (list stop_record)) (k k' : string)
    (v v' : list stop_record) :
  NoDup (keys d) ->
  In (k', v') (dict_set String.eqb d k v) ->
  (k' = k /\ v' = v) \/ (In (k', v') d /\ k' <> k).
Proof.
  unfold keys. induction d as [|[k0 v0] d IH]; simpl; intros Hn.
  - intros [H|[]]. inversion H; subst. now left.
  - inversion Hn as [|? ? Hk0 Hd]; subst.
    destruct (String.eqb k0 k) eqn:E.
    + apply String.eqb_eq in E. subst k0. intros [H|H].
      * inversion H; subst. now left.
      * right. split; [now right|]. intros ->. apply Hk0.
        change k with (fst (k, v')). now apply in_map.
    + apply String.eqb_neq in E. intros [H|H].
      * inversion H; subst. right. split; [now left|assumption].
      * destruct (IH Hd H) as [?|[? ?]]; [now left|right; tauto].
Qed.

Lemma In_dict_pop (d : dict string (list stop_record)) (k k' : string)
    (v' : list stop_record) :
  NoDup (keys d) ->
  In (k', v') (dict_pop String.eqb d k) -> In (k', v') d /\ k' <> k.
Proof.
  unfold keys. induction d as [|[k0 v0] d IH]; simpl; intros Hn; [tauto|].
  inversion Hn as [|? ? Hk0 Hd]; subst.
  destruct (String.eqb k0 k) eqn:E.
  - apply String.eqb_eq in E. subst k0. intros H.
    split; [now right|]. intros ->. apply Hk0.
    change k with (fst (k, v')). now apply in_map.
  - apply String.eqb_neq in E. intros [H|H].
    + inversion H; subst. split; [now left|assumption].
    + destruct (IH Hd H). split; [now right|assumption].
Qed.

Lemma dict_pop_NoDup (d : dict string (list stop_record)) (k : string) :
  NoDup (keys d) -> NoDup (keys (dict_pop String.eqb d k)).
Proof.
  unfold keys. induction d as [|[k0 v0] d IH]; simpl; intros Hn; [assumption|].
  inversion Hn as [|? ? Hk0 Hd]; subst.
  destruct (String.eqb k0 k); [assumption|]. simpl. constructor.
  - intros Hin. apply in_map_iff in Hin. destruct Hin as ([k1 v1] & E1 & Hin).
    simpl in E1. subst k1. apply Hk0.
    assert (N : NoDup (map fst d)) by assumption.
    destruct (In_dict_pop d k k0 v1 N Hin) as [Hin' _].
    change k0 with (fst (k0, v1)). now apply in_map.
  - now apply IH.
Qed.

(** Replacing or removing the list of a category changes the number of
    candidates left by the lengths involved. *)
Lemma candidates_left_set (d : dict string (list stop_record)) (k : string)
    (l l' : list stop_record) :
  NoDup (keys d) -> In (k, l) d ->
  candidates_left (dict_set String.eqb d k l') + length l
  = candidates_left d + length l'.
Proof.
  unfold keys, candidates_left.
  induction d as [|[k0 v0] d IH]; simpl; intros Hn; [tauto|].
  inversion Hn as [|? ? Hk0 Hd]; subst.
  destruct (String.eqb k0 k) eqn:E.
  - apply String.eqb_eq in E. subst k0. intros [H|H].
    + inversion H; subst. simpl. lia.
    + exfalso. apply Hk0. change k with (fst (k, l)). now apply in_map.
  - apply String.eqb_neq in E. intros [H|H]; [congruence|].
    simpl. specialize (IH Hd H). lia.
Qed.

Lemma candidates_left_pop (d : dict string (list stop_record)) (k : string)
    (l : list stop_record) :
  NoDup (keys d) -> In (k, l) d ->
  candidates_left (dict_pop String.eqb d k) + length l = candidates_left d.
Proof.
  unfold keys, candidates_left.
  induction d as [|[k0 v0] d IH]; simpl; intros Hn; [tauto|].
  inversion Hn as [|? ? Hk0 Hd]; subst.
  destruct (String.eqb k0 k) eqn:E.
  - apply String.eqb_eq in E. subst k0. intros [H|H].
    + inversion H; subst. lia.
    + exfalso. apply Hk0. change k with (fst (k, l)). now apply in_map.
  - apply String.eqb_neq in E. intros [H|H]; [congruence|].
    simpl. specialize (IH Hd H). lia.
Qed.

(** In a fresh state under the cap, a pass inserts the first candidate of
    the category it selects and leaves a fresh state. *)
Lemma fresh_pass (cap : nat) (s : loop_state) :
  fresh_state s -> num_inserted s < cap -> beeg_data s <> [] ->
  exists s',
    outer_iteration cap s = Continue s'
    /\ fresh_state s'
    /\ num_inserted s' = num_inserted s + 1
    /\ candidates_left (beeg_data s') + 1 = candidates_left (beeg_data s)
    /\ length (stops s') = length (stops s) + 1.
Proof.
  intros (Hn & Hall) Hlt Hne. unfold outer_iteration.
  destruct (beeg_data s) as [|e0 bd0] eqn:Ebd; [congruence|].
  rewrite <- Ebd in *.
  assert (Hlen : length (beeg_data s) <> 0) by (rewrite Ebd; simpl; lia).
  apply Nat.eqb_neq in Hlen. rewrite Hlen.
  apply Nat.ltb_lt in Hlt. rewrite Hlt. simpl.
  apply Nat.eqb_neq in Hlen.
  pose proof (nth_In (beeg_data s) (EmptyString, [])
                (Nat.mod_upper_bound (num_inserted s) _ Hlen)) as Hin.
  destruct (nth (num_inserted s mod length (beeg_data s)) (beeg_data s)
                (EmptyString, [])) as [stype l].
  rewrite Forall_forall in Hall.
  destruct (Hall _ Hin) as [Hl Hnew]. simpl in Hl, Hnew.
  destruct l as [|c rest]; [congruence|].
  pose proof Hnew as Hnew'. simpl in Hnew'. destruct Hnew' as (Hc & _ & _).
  simpl. rewrite Hc.
  eexists. split; [reflexivity|]. simpl.
  split; [|split; [reflexivity|split]].
  - split.
    + destruct (length rest =? 0);
        [now apply dict_pop_NoDup
        |apply dict_set_NoDup; [apply String.eqb_eq|assumption]].
    + apply Forall_forall. intros [k' l'] Hk'. simpl.
      assert (Hcase : (k' = stype /\ l' = rest /\ rest <> [])
                      \/ (In (k', l') (beeg_data s) /\ k' <> stype)).
      { destruct (length rest =? 0) eqn:Er.
        - right. now apply In_dict_pop.
        - apply Nat.eqb_neq in Er.
          destruct (In_dict_set _ _ _ _ _ Hn Hk') as [[-> ->]|?];
            [left|right; assumption].
          repeat split. intros ->. now apply Er. }
      destruct Hcase as [(-> & -> & Hr)|[Hold Hk]].
      * split; [exact Hr|]. now apply all_new_tail.
      * destruct (Hall _ Hold) as [H1 H2]. simpl in H1, H2.
        split; [exact H1|]. apply all_new_other; [congruence|exact H2].
  - destruct (length rest =? 0) eqn:Er.
    + apply Nat.eqb_eq in Er.
      pose proof (candidates_left_pop _ _ _ Hn Hin) as H. simpl in H. lia.
    + pose proof (candidates_left_set _ _ _ rest Hn Hin) as H.
      simpl in H. lia.
  - unfold insert_stop. rewrite length_app. reflexivity.
Qed.

(** From a fresh state the loop leaves, within one pass more than the cap
    allows insertions, having inserted as many candidates as it has or as
    the cap allows. *)
Lemma fresh_run (cap fuel : nat) (s : loop_state) :
  fresh_state s -> num_inserted s <= cap -> cap - num_inserted s < fuel ->
  exists s',
    run_loop fuel cap s = Some s'
    /\ num_inserted s'
       = Nat.min cap (num_inserted s + candidates_left (beeg_data s))
    /\ length (stops s') + num_inserted s
       = length (stops s) + num_inserted s'.
Proof.
  revert s. induction fuel as [|fuel IH]; intros s Hf Hle Hfuel; [lia|].
  simpl.
  destruct (Nat.eq_dec (num_inserted s) cap) as [Hcap|Hcap].
  - exists s.
    assert (E : outer_iteration cap s = Exit).
    { unfold outer_iteration. rewrite Hcap, Nat.ltb_irrefl. simpl.
      now destruct (length (beeg_data s) =? 0). }
    rewrite E. split; [reflexivity|]. split; lia.
  - destruct (beeg_data s) as [|e0 bd0] eqn:Ebd.
    + exists s.
      assert (E : outer_iteration cap s = Exit).
      { unfold outer_iteration. rewrite Ebd. simpl.
        now rewrite orb_true_r. }
      rewrite E. split; [reflexivity|]. unfold candidates_left. simpl.
      split; lia.
    + rewrite <- Ebd.
      destruct (fresh_pass cap s Hf ltac:(lia) ltac:(congruence))
        as (s1 & E1 & Hf1 & Hn1 & Hc1 & Hl1).
      rewrite E1.
      destruct (IH s1 Hf1 ltac:(lia) ltac:(lia)) as (s' & R & Hn' & Hl').
      exists s'. split; [exact R|]. split; lia.
Qed.

End SeptaProgress.

Section SeptaMore.
Import StopsTable Septa.

(** X1. When the source answers the three requests with non-empty listings
    whose candidates are all new, the invocation returns (26 passes of its
    loop are enough) and has inserted 25 stops, or all the candidates when
    they are fewer. *)
Theorem fresh_listings_return
    (api : string -> response (list stop_record))
    (bus trolley rail : list stop_record) (db : list row) :
  fetch_septa_stops (api "bus_stops") = Returned bus ->
  fetch_septa_stops (api "trolley_stops") = Returned trolley ->
  fetch_septa_stops (api "rail_stations") = Returned rail ->
  bus <> [] -> trolley <> [] -> rail <> [] ->
  all_new db "bus_stops" bus -> all_new db "trolley_stops" trolley ->
  all_new db "rail_stations" rail ->
  exists db',
    store_septa_stops 26 api db = Some (Returned (db', PyNone))
    /\ length db'
       = length db
         + Nat.min 25 (length bus + length trolley + length rail).
Proof.
  intros Fb Ft Fr Hb Ht Hr Nb Nt Nr.
  unfold store_septa_stops, store_fetched. rewrite Fb, Ft, Fr.
  destruct (fresh_run BATCH_SIZE 26 (init_state bus trolley rail db))
    as (s & R & Hn & Hl).
  - split.
    + simpl. repeat constructor; simpl; intuition discriminate.
    + simpl. repeat constructor; simpl; assumption.
  - simpl. lia.
  - unfold BATCH_SIZE. simpl. lia.
  - rewrite R. exists (stops s). split; [reflexivity|].
    unfold candidates_left, BATCH_SIZE, init_state, list_sum in *.
    cbn [beeg_data stops num_inserted map snd fold_right] in *. lia.
Qed.

Lemma fresh_listings_return_witness :
  exists db',
    store_septa_stops 26 (Examples.septa_source 20) []
    = Some (Returned (db', PyNone))
    /\ length db' = 0 + Nat.min 25 (20 + 20 + 20).
Proof.
  apply (fresh_listings_return (Examples.septa_source 20)
           (Examples.candidates "bus_stops" 20)
           (Examples.candidates "trolley_stops" 20)
           (Examples.candidates "rail_stations" 20) []);
    try reflexivity; try discriminate;
    vm_compute; repeat constructor.
Defined.

(** The candidates the inner loop leaves are candidates it was given. *)
Lemma inner_loop_rest (stype : string) (l : list stop_record)
    (db : list row) :
  incl (fst (fst (inner_loop stype l db))) l.
Proof.
  induction l as [|c l IH]; simpl.
  - apply incl_refl.
  - destruct (stop_exists db stype (location_id c)); simpl.
    + now apply incl_tl.
    + apply incl_tl, incl_refl.
Qed.

Lemma In_dict_set_weak (d : dict string (list stop_record)) (k k' : string)
    (v v' : list stop_record) :
  In (k', v') (dict_set String.eqb d k v) ->
  (k' = k /\ v' = v) \/ In (k', v') d.
Proof.
  induction d as [|[k0 v0] d IH]; simpl.
  - intros [H|[]]. inversion H. now left.
  - destruct (String.eqb k0 k) eqn:E.
    + apply String.eqb_eq in E. subst k0. intros [H|H].
      * inversion H. now left.
      * right. now right.
    + intros [H|H]; [right; now left|].
      destruct (IH H) as [?|?]; [now left|right; now right].
Qed.

Lemma In_dict_pop_weak (d : dict string (list stop_record)) (k k' : string)
    (v' : list stop_record) :
  In (k', v') (dict_pop String.eqb d k) -> In (k', v') d.
Proof.
  induction d as [|[k0 v0] d IH]; simpl; [tauto|].
  destruct (String.eqb k0 k); [now right|].
  intros [H|H]; [now left|right; now apply IH].
Qed.

(** A pass leaves in [beeg_data] candidates that were there, and the row
    it inserts, if any, is made from one of them. *)
Lemma outer_iteration_provenance (cap : nat) (s s' : loop_state) :
  outer_iteration cap s = Continue s' ->
  (forall k l, In (k, l) (beeg_data s') ->
     exists l0, In (k, l0) (beeg_data s) /\ incl l l0)
  /\ (stops s' = stops s
      \/ exists k l c,
           In (k, l) (beeg_data s) /\ In c l
           /\ stops s' = insert_stop (stops s) k c).
Proof.
  unfold outer_iteration.
  destruct (length (beeg_data s) =? 0) eqn:El.
  - rewrite orb_true_r. discriminate.
  - rewrite orb_false_r.
    destruct (num_inserted s <? cap); [|discriminate].
    apply Nat.eqb_neq in El.
    pose proof (nth_In (beeg_data s) (EmptyString, [])
                  (Nat.mod_upper_bound (num_inserted s) _ El)) as Hin.
    destruct (nth (num_inserted s mod length (beeg_data s)) (beeg_data s)
                  (EmptyString, [])) as [stype l].
    pose proof (inner_loop_rest stype l (stops s)) as Hrest.
    assert (Hold : forall bd' k l1,
               (forall k' v', In (k', v') bd' ->
                  (k' = stype
                   /\ v' = fst (fst (inner_loop stype l (stops s))))
                  \/ In (k', v') (beeg_data s)) ->
               In (k, l1) bd' ->
               exists l0, In (k, l0) (beeg_data s) /\ incl l1 l0).
    { intros bd' k l1 Hbd Hk. destruct (Hbd k l1 Hk) as [[-> ->]|H].
      - exists l. tauto.
      - exists l1. split; [exact H|apply incl_refl]. }
    destruct (inner_loop_cases stype l (stops s))
      as [[E _]|(c & rest & E & Hc & _)]; rewrite E in *; simpl in *;
      intros H; inversion H; subst; clear H; simpl.
    + split; [|now left].
      intros k l1. apply Hold. intros k' v'. apply In_dict_set_weak.
    + split.
      * intros k l1. apply Hold. intros k' v' Hk'.
        destruct (length rest =? 0).
        -- right. eapply In_dict_pop_weak. exact Hk'.
        -- now apply In_dict_set_weak.
      * right. exists stype, l, c. tauto.
Qed.

Lemma run_steps_provenance (cap n : nat) (s : loop_state) :
  exists ins,
    stops (run_steps n cap s) = stops s ++ ins
    /\ forall r, In r ins ->
         exists k l c, In (k, l) (beeg_data s) /\ In c l /\ row_of k c r.
Proof.
  revert s. induction n as [|n IH]; intros s; simpl.
  - exists []. rewrite app_nil_r. split; [reflexivity|intros r []].
  - destruct (outer_iteration cap s) as [|s1] eqn:E.
    + exists []. rewrite app_nil_r. split; [reflexivity|intros r []].
    + apply outer_iteration_provenance in E. destruct E as [Hbd Hst].
      destruct (IH s1) as (ins & I1 & I2).
      assert (Hlift : forall r, In r ins ->
                 exists k l c, In (k, l) (beeg_data s) /\ In c l
                               /\ row_of k c r).
      { intros r Hr. destruct (I2 r Hr) as (k & l & c & H1 & H2 & H3).
        destruct (Hbd k l H1) as (l0 & H4 & H5).
        exists k, l0, c. split; [exact H4|]. split; [now apply H5|exact H3]. }
      destruct Hst as [Hst|(k & l & c & H1 & H2 & Hst)].
      * exists ins. rewrite I1, Hst. split; [reflexivity|exact Hlift].
      * unfold insert_stop in Hst. eexists (_ :: ins).
        rewrite I1, Hst, <- app_assoc. split; [reflexivity|].
        intros r [<-|Hr]; [|now apply Hlift].
        exists k, l, c. split; [exact H1|]. split; [exact H2|].
        repeat split.
Qed.

(** X3. Every row the loop adds to the [stops] table, at any point, holds
    the fields of a candidate of one of the three fetched listings, under
    the stop type of that listing. *)
Theorem inserted_stops_come_from_listings (cap n : nat)
    (bus trolley rail : list stop_record) (db : list row) :
  exists ins,
    stops (run_steps n cap (init_state bus trolley rail db)) = db ++ ins
    /\ forall r, In r ins ->
         exists c,
           (In c bus /\ row_of "bus_stops" c r)
           \/ (In c trolley /\ row_of "trolley_stops" c r)
           \/ (In c rail /\ row_of "rail_stations" c r).
Proof.
  destruct (run_steps_provenance cap n (init_state bus trolley rail db))
    as (ins & I1 & I2).
  exists ins. split; [exact I1|].
  intros r Hr. destruct (I2 r Hr) as (k & l & c & H1 & H2 & H3).
  exists c. simpl in H1.
  destruct H1 as [H|[H|[H|[]]]]; inversion H; subst; tauto.
Qed.

(** X5. When one of the three requests is answered with status 200 and a
    body that does not parse, the invocation raises [JSONDecodeError]
    before its loop starts, whatever the other two answers and the table
    are: one garbled category keeps the stops of the two others out. *)
Theorem garbled_category_aborts (fuel : nat)
    (api : string -> response (list stop_record)) (db : list row)
    (stype : string) :
  In stype STOP_TYPES ->
  status_code (api stype) = 200%Z -> json (api stype) = None ->
  store_septa_stops fuel api db = Some (Raised JSONDecodeError).
Proof.
  intros Hin Hs Hj.
  assert (Hf : fetch_septa_stops (api stype) = Raised JSONDecodeError)
    by (unfold fetch_septa_stops; now rewrite Hs, Hj).
  assert (Hany : forall r, fetch_septa_stops r = Raised JSONDecodeError
                           \/ exists l, fetch_septa_stops r = Returned l).
  { intros r. unfold fetch_septa_stops.
    destruct (status_code r =? 200)%Z; [destruct (json r)|]; eauto. }
  unfold store_septa_stops.
  destruct (Hany (api "bus_stops")) as [->|[bus Eb]]; [reflexivity|].
  destruct (Hany (api "trolley_stops")) as [Et|[trolley Et]];
    [now rewrite Eb, Et|].
  destruct (Hany (api "rail_stations")) as [Er|[rail Er]];
    [now rewrite Eb, Et, Er|].
  exfalso. unfold STOP_TYPES in Hin.
  destruct Hin as [<-|[<-|[<-|[]]]]; congruence.
Qed.

Lemma garbled_category_aborts_witness :
  store_septa_stops 0
    (fun stype => if String.eqb stype "rail_stations"
                  then Examples.septa_garbled
                  else Examples.septa_source 3 stype) []
  = Some (Raised JSONDecodeError).
Proof.
  apply (garbled_category_aborts 0 _ [] "rail_stations").
  - simpl. tauto.
  - reflexivity.
  - reflexivity.
Defined.

(** X4. The driver's loop over [store_septa_stops]: when its [runs]
    invocations return, whatever the source answers to each of them, the
    table is the old one followed by at most 25 rows per invocation, whose
    natural keys are new to the table and pairwise distinct. *)
Theorem septa_runs_inserted (runs fuel i : nat)
    (api : nat -> string -> response (list stop_record))
    (db db' : list row) :
  Main.septa_runs runs fuel i api db = Some (Returned db') ->
  exists ins,
    db' = db ++ ins
    /\ length ins <= 25 * runs
    /\ NoDup (natural_keys ins)
    /\ (forall k, In k (natural_keys ins) -> ~ In k (natural_keys db)).
Proof.
  revert i db. induction runs as [|runs IH]; intros i db; simpl.
  - intros H. inversion H; subst. exists []. rewrite app_nil_r. simpl.
    repeat split; [lia|constructor|tauto].
  - destruct (store_septa_stops fuel (api i) db) as [[[db1 v]|e]|] eqn:E;
      try discriminate.
    intros H. apply store_septa_stops_returned in E.
    destruct E as (_ & ins1 & -> & L1 & N1 & D1).
    destruct (IH _ _ H) as (ins & -> & L & N & D).
    exists (ins1 ++ ins). rewrite app_assoc. split; [reflexivity|].
    rewrite length_app. unfold BATCH_SIZE in L1. split; [lia|].
    rewrite natural_keys_app. split.
    + apply NoDup_app; [exact N1|exact N|].
      intros k H1 H2. apply (D k H2). rewrite natural_keys_app.
      apply in_or_app. now right.
    + intros k Hk Hin. apply in_app_or in Hk. destruct Hk as [Hk|Hk].
      * exact (D1 k Hk Hin).
      * apply (D k Hk). rewrite natural_keys_app. apply in_or_app. now left.
Qed.

Lemma septa_runs_inserted_witness :
  exists ins,
    Examples.stops_twice = [] ++ ins
    /\ length ins <= 25 * 2
    /\ NoDup (natural_keys ins)
    /\ (forall k, In k (natural_keys ins) -> ~ In k (natural_keys [])).
Proof.
  apply (septa_runs_inserted 2 30 0 (fun _ => Examples.septa_source 20)).
  vm_compute. reflexivity.
Defined.

(** Setting the value of the entry at position [i], by its key. *)
Lemma dict_set_nth (d : dict string (list stop_record)) (i : nat)
    (k : string) (l v : list stop_record) :
  NoDup (keys d) -> i < length d ->
  nth i d (EmptyString, []) = (k, l) ->
  length (dict_set String.eqb d k v) = length d
  /\ nth i (dict_set String.eqb d k v) (EmptyString, []) = (k, v)
  /\ dict_set String.eqb (dict_set String.eqb d k v) k v
     = dict_set String.eqb d k v.
Proof.
  unfold keys. revert i. induction d as [|[k0 v0] d IH]; intros i Hn Hi;
    [simpl in Hi; lia|].
  inversion Hn as [|? ? Hk0 Hd]; subst. destruct i as [|i]; simpl.
  - intros E. inversion E; subst. rewrite String.eqb_refl. simpl.
    rewrite String.eqb_refl. auto.
  - intros E. simpl in Hi.
    assert (Hk : k0 <> k).
    { intros ->. apply Hk0. change k with (fst (k, l)). apply in_map.
      rewrite <- E. apply nth_In. lia. }
    apply String.eqb_neq in Hk. rewrite Hk. simpl. rewrite Hk.
    destruct (IH i Hd ltac:(lia) E) as (H1 & H2 & H3).
    rewrite H1, H2, H3. auto.
Qed.

(** X2. A pass of the outer loop that inserts nothing is repeated for
    ever: the category it selected stays in [beeg_data] with an empty list
    and the counter has not moved, so the invocation never returns. *)
Theorem pass_without_insertion_hangs (cap : nat) (s s' : loop_state) :
  NoDup (keys (beeg_data s)) ->
  outer_iteration cap s = Continue s' ->
  num_inserted s' = num_inserted s ->
  forall fuel, run_loop fuel cap s = None.
Proof.
  intros Hn E Hnum.
  assert (Hstuck : outer_iteration cap s' = Continue s').
  { revert E. unfold outer_iteration.
    destruct (length (beeg_data s) =? 0) eqn:El.
    - rewrite orb_true_r. discriminate.
    - rewrite orb_false_r.
      destruct (num_inserted s <? cap) eqn:Ec; [|discriminate].
      apply Nat.eqb_neq in El.
      pose proof (Nat.mod_upper_bound (num_inserted s) _ El) as Hi.
      destruct (nth (num_inserted s mod length (beeg_data s)) (beeg_data s)
                    (EmptyString, [])) as [stype l] eqn:En.
      destruct (inner_loop_cases stype l (stops s))
        as [[Ei _]|(c & rest & Ei & _ & _)]; rewrite Ei;
        intros H; inversion H; subst; clear H; simpl in *; [|lia].
      destruct (dict_set_nth _ _ _ _ [] Hn Hi En) as (H1 & H2 & H3).
      rewrite H1, Ec. apply Nat.eqb_neq in El. rewrite El. simpl.
      rewrite H2. simpl. now rewrite H3. }
  intros [|fuel]; [reflexivity|]. simpl. rewrite E.
  now apply run_loop_stuck.
Qed.

Lemma pass_without_insertion_hangs_witness :
  run_loop 1000 BATCH_SIZE
    (init_state (Examples.candidates "bus_stops" 3)
                (Examples.candidates "trolley_stops" 20)
                (Examples.candidates "rail_stations" 20)
                Examples.stops_once) = None.
Proof.
  apply (pass_without_insertion_hangs BATCH_SIZE _
           (init_state [] (Examples.candidates "trolley_stops" 20)
                       (Examples.candidates "rail_stations" 20)
                       Examples.stops_once)).
  - simpl. repeat constructor; simpl; intuition discriminate.
  - vm_compute. reflexivity.
  - reflexivity.
Defined.

End SeptaMore.

(** * More about pois.py: what is inserted, and when nothing is *)

Section PoisMore.
Import Pois.

Lemma poi_keys_app (l1 l2 : list PoisTable.row) :
  poi_keys (l1 ++ l2) = poi_keys l1 ++ poi_keys l2.
Proof.
  induction l1 as [|r l1 IH]; simpl; [reflexivity|].
  destruct (poi_key r); simpl; now rewrite IH.
Qed.

(** The existence check finds every stored natural key. *)
Lemma poi_exists_key (db : list PoisTable.row) (sid dist : Z)
    (cat nm : string) :
  poi_exists db sid (Some dist) (Some cat) (Some nm) = false ->
  ~ In (sid, dist, cat, nm) (poi_keys db).
Proof.
  unfold poi_exists. induction db as [|r db IH]; simpl; [tauto|].
  intros E. apply orb_false_elim in E. destruct E as [Er Edb].
  unfold poi_key.
  destruct (PoisTable.distance r) as [d|] eqn:Ed; [|now apply IH].
  destruct (PoisTable.category r) as [c|] eqn:Ec; [|now apply IH].
  destruct (PoisTable.name r) as [n|] eqn:En; [|now apply IH].
  intros [K|K]; [|now apply IH].
  inversion K; subst. simpl in Er.
  rewrite !Z.eqb_refl, !String.eqb_refl in Er. discriminate.
Qed.

(** The rows the inner loop inserts: made from records of the listing, with
    natural keys that are new to the table and pairwise distinct. *)
Lemma for_pois_data_rows (cap : nat) (sid : Z) (pois_data : list poi)
    (db : list PoisTable.row) (c : nat) :
  exists ins,
    for_pois_data cap sid pois_data (db, c) = (db ++ ins, c + length ins)
    /\ NoDup (poi_keys ins)
    /\ (forall k, In k (poi_keys ins) -> ~ In k (poi_keys db))
    /\ (forall r, In r ins ->
          exists pd, In pd pois_data /\ poi_row_of sid pd r).
Proof.
  revert db c. induction pois_data as [|pd rest IH]; intros db c.
  - exists []. simpl. rewrite app_nil_r, Nat.add_0_r.
    repeat split; [constructor|tauto|intros r []].
  - simpl.
    destruct (poi_exists db sid (poi_distance pd) (pcat pd) (pname pd)) eqn:E.
    + destruct (IH db c) as (ins & I1 & I2 & I3 & I4).
      exists ins. repeat split; try assumption.
      intros r Hr. destruct (I4 r Hr) as (pd' & H1 & H2). eauto.
    + set (r0 := PoisTable.mkRow (next_id (map PoisTable.id db)) sid
                                 (poi_distance pd) (pcat pd) (pname pd)).
      assert (Hfresh : forall k, poi_key r0 = Some k ->
                                 ~ In k (poi_keys db)).
      { unfold poi_key. simpl. intros k Hk.
        destruct (poi_distance pd) as [dist|]; [|discriminate].
        destruct (pcat pd) as [cat|]; [|discriminate].
        destruct (pname pd) as [nm|]; [|discriminate].
        inversion Hk; subst. now apply poi_exists_key. }
      assert (Hrow : poi_row_of sid pd r0) by (repeat split).
      destruct (cap <=? c + 1).
      * exists [r0]. unfold insert_poi. fold r0.
        split; [reflexivity|]. simpl.
        destruct (poi_key r0) as [k|] eqn:Ek.
        -- split; [repeat constructor; intros []|].
           split; [intros k' [<-|[]]; now apply Hfresh|].
           intros r [<-|[]]. eauto.
        -- split; [constructor|]. split; [intros k' []|].
           intros r [<-|[]]. eauto.
      * destruct (IH (insert_poi db sid (poi_distance pd) (pname pd) (pcat pd))
                     (c + 1)) as (ins & I1 & I2 & I3 & I4).
        unfold insert_poi in *. fold r0 in I1, I3 |- *.
        rewrite <- app_assoc in I1. simpl in I1.
        exists (r0 :: ins). split; [rewrite I1; simpl; f_equal; lia|].
        assert (I3' : forall k, In k (poi_keys ins) ->
                        ~ In k (poi_keys db) /\ poi_key r0 <> Some k).
        { intros k Hk. specialize (I3 k Hk). rewrite poi_keys_app in I3.
          split.
          - intros H. apply I3. apply in_or_app. now left.
          - intros H. apply I3. apply in_or_app. right. simpl.
            rewrite H. now left. }
        simpl. destruct (poi_key r0) as [k|] eqn:Ek.
        -- split; [constructor; [|exact I2]|].
           { intros Hin. now destruct (I3' k Hin). }
           split.
           { intros k' [<-|Hk']; [now apply Hfresh|now apply I3']. }
           intros r [<-|Hr]; [eauto|].
           destruct (I4 r Hr) as (pd' & H1 & H2). eauto.
        -- split; [exact I2|]. split; [intros k' Hk'; now apply I3'|].
           intros r [<-|Hr]; [eauto|].
           destruct (I4 r Hr) as (pd' & H1 & H2). eauto.
Qed.

(** The rows the outer loop inserts: made from records of the listing of
    a stop of the list that had fewer than 50 rows to begin with, with
    natural keys that are new to the table and pairwise distinct. *)
Lemma for_all_stops_rows (cap : nat) (api : locationiq)
    (all_stops : list stop_tuple) (db : list PoisTable.row) (c : nat) :
  exists ins,
    for_all_stops cap api all_stops (db, c)
    = Returned (db ++ ins, c + length ins)
    /\ NoDup (poi_keys ins)
    /\ (forall k, In k (poi_keys ins) -> ~ In k (poi_keys db))
    /\ (forall r, In r ins ->
          exists t pd,
            In t all_stops /\ In pd (listing api t)
            /\ poi_row_of (tuple_id t) pd r
            /\ count_for_stop db (tuple_id t) < 50).
Proof.
  revert db c. induction all_stops as [|[[[sid slat] slon] n] rest IH];
    intros db c.
  - exists []. simpl. rewrite app_nil_r, Nat.add_0_r.
    repeat split; [constructor|tauto|intros r []].
  - cbn [for_all_stops fst snd]. destruct (cap <=? c).
    + exists []. simpl. rewrite app_nil_r, Nat.add_0_r.
      repeat split; [constructor|tauto|intros r []].
    + destruct (count_for_stop db sid <? 50) eqn:Esat.
      * apply Nat.ltb_lt in Esat.
        rewrite (fetch_locationiq_pois_listing api sid slat slon n).
        set (t := (sid, slat, slon, n)).
        destruct (for_pois_data_rows cap sid (listing api t) db c)
          as (ins1 & J1 & J2 & J3 & J4).
        rewrite J1.
        destruct (IH (db ++ ins1) (c + length ins1))
          as (ins & I1 & I2 & I3 & I4).
        exists (ins1 ++ ins).
        rewrite app_assoc, length_app, Nat.add_assoc.
        split; [exact I1|]. rewrite poi_keys_app. split; [|split].
        -- apply NoDup_app; [exact J2|exact I2|].
           intros k H1 H2. apply (I3 k H2). rewrite poi_keys_app.
           apply in_or_app. now right.
        -- intros k Hk Hin. apply in_app_or in Hk. destruct Hk as [Hk|Hk].
           ++ exact (J3 k Hk Hin).
           ++ apply (I3 k Hk). rewrite poi_keys_app. apply in_or_app.
              now left.
        -- intros r Hr. apply in_app_or in Hr. destruct Hr as [Hr|Hr].
           ++ destruct (J4 r Hr) as (pd & H1 & H2).
              exists t, pd. simpl. tauto.
           ++ destruct (I4 r Hr) as (t' & pd & H1 & H2 & H3 & H4).
              exists t', pd. split; [now right|]. split; [exact H2|].
              split; [exact H3|]. rewrite count_for_stop_app in H4. lia.
      * destruct (IH db c) as (ins & I1 & I2 & I3 & I4).
        exists ins. repeat split; try assumption.
        intros r Hr. destruct (I4 r Hr) as (t' & pd & H1 & H2 & H3 & H4).
        exists t', pd. split; [now right|]. tauto.
Qed.

Lemma store_pois_rows (api : locationiq) (stops : list StopsTable.row)
    (db : list PoisTable.row) :
  exists ins,
    store_pois api stops db
    = Returned (db ++ ins, PyInt (Z.of_nat (length ins)))
    /\ NoDup (poi_keys ins)
    /\ (forall k, In k (poi_keys ins) -> ~ In k (poi_keys db))
    /\ (forall r, In r ins ->
          exists t pd,
            In t (select_stops stops) /\ In pd (listing api t)
            /\ poi_row_of (tuple_id t) pd r
            /\ count_for_stop db (tuple_id t) < 50).
Proof.
  unfold store_pois, store_pois_with.
  destruct (for_all_stops_rows BATCH_SIZE api
              (reorder (select_stops stops) db) db 0)
    as (ins & I1 & I2 & I3 & I4).
  rewrite I1. exists ins. simpl. repeat split; try assumption.
  intros r Hr. destruct (I4 r Hr) as (t & pd & H1 & H2 & H3 & H4).
  exists t, pd. split; [now apply reorder_In in H1|]. tauto.
Qed.

(** X6. Saturation threshold: [store_pois] adds no row for a stop that
    holds 50 rows or more when the invocation starts; every row it adds
    belongs to a stop of the [stops] table that held fewer. *)
Theorem saturated_stops_get_no_row (api : locationiq)
    (stops : list StopsTable.row) (db : list PoisTable.row) :
  exists ins,
    store_pois api stops db
    = Returned (db ++ ins, PyInt (Z.of_nat (length ins)))
    /\ forall r, In r ins ->
         In (PoisTable.stop_id r) (map StopsTable.id stops)
         /\ count_for_stop db (PoisTable.stop_id r) < 50.
Proof.
  destruct (store_pois_rows api stops db) as (ins & I1 & _ & _ & I4).
  exists ins. split; [exact I1|].
  intros r Hr. destruct (I4 r Hr) as (t & pd & H1 & _ & (H3 & _) & H4).
  rewrite H3. split; [|exact H4].
  unfold select_stops in H1. apply in_map_iff in H1.
  destruct H1 as (s & <- & Hs). simpl. now apply in_map.
Qed.

(** X7. POI dedup: among the rows one invocation adds, those whose
    distance, category and name are all non-null carry natural keys (stop,
    distance, category, name) that were not in the table and are pairwise
    distinct, so such a key is never stored twice. (A row with a null
    field has no natural key: no check finds it.) *)
Theorem poi_insertion_dedups (api : locationiq)
    (stops : list StopsTable.row) (db : list PoisTable.row) :
  exists ins,
    store_pois api stops db
    = Returned (db ++ ins, PyInt (Z.of_nat (length ins)))
    /\ NoDup (poi_keys ins)
    /\ (forall k, In k (poi_keys ins) -> ~ In k (poi_keys db))
    /\ (NoDup (poi_keys db) -> NoDup (poi_keys (db ++ ins))).
Proof.
  destruct (store_pois_rows api stops db) as (ins & I1 & I2 & I3 & _).
  exists ins. repeat split; try assumption.
  intros Hdb. rewrite poi_keys_app. apply NoDup_app; try assumption.
  intros k H1 H2. exact (I3 k H2 H1).
Qed.

(** X8. Every row [store_pois] adds is made from a record of the listing
    the source gave for the stop of the row: the distance of the record,
    its class and its name, or the sentinels for a missing class or
    name. *)
Theorem inserted_pois_come_from_listings (api : locationiq)
    (stops : list StopsTable.row) (db : list PoisTable.row) :
  exists ins,
    store_pois api stops db
    = Returned (db ++ ins, PyInt (Z.of_nat (length ins)))
    /\ forall r, In r ins ->
         exists t pd,
           In t (select_stops stops) /\ In pd (listing api t)
           /\ poi_row_of (tuple_id t) pd r.
Proof.
  destruct (store_pois_rows api stops db) as (ins & I1 & _ & _ & I4).
  exists ins. split; [exact I1|].
  intros r Hr. destruct (I4 r Hr) as (t & pd & H1 & H2 & H3 & _).
  exists t, pd. tauto.
Qed.

(** The inner loop leaves the table and the count alone when the check
    finds every record. *)
Lemma for_pois_data_nothing_new (cap : nat) (sid : Z) (pois_data : list poi)
    (db : list PoisTable.row) (c : nat) :
  (forall pd, In pd pois_data -> is_new db sid pd = false) ->
  for_pois_data cap sid pois_data (db, c) = (db, c).
Proof.
  induction pois_data as [|pd rest IH]; simpl; intros H; [reflexivity|].
  assert (E : is_new db sid pd = false) by (apply H; now left).
  unfold is_new in E. apply negb_false_iff in E. rewrite E.
  apply IH. intros pd' Hpd'. apply H. now right.
Qed.

(** An inner loop that ends with the count it started with has found every
    record in the table. *)
Lemma for_pois_data_same_count (cap : nat) (sid : Z) (pois_data : list poi)
    (db db' : list PoisTable.row) (c : nat) :
  for_pois_data cap sid pois_data (db, c) = (db', c) ->
  forall pd, In pd pois_data -> is_new db sid pd = false.
Proof.
  induction pois_data as [|pd rest IH]; simpl; intros H; [intros pd []|].
  destruct (poi_exists db sid (poi_distance pd) (pcat pd) (pname pd)) eqn:E.
  - intros pd' [<-|Hpd']; [unfold is_new; now rewrite E|now apply IH].
  - exfalso. destruct (cap <=? c + 1).
    + inversion H. lia.
    + destruct (for_pois_data_inserted cap sid rest
                  (insert_poi db sid (poi_distance pd) (pname pd) (pcat pd))
                  (c + 1)) as (ins & I1 & _).
      rewrite I1 in H. inversion H. lia.
Qed.

Lemma for_all_stops_nothing_fetchable (cap : nat) (api : locationiq)
    (all_stops : list stop_tuple) (db : list PoisTable.row) (c : nat) :
  (forall t, In t all_stops -> fetchable api db t = false) ->
  for_all_stops cap api all_stops (db, c) = Returned (db, c).
Proof.
  induction all_stops as [|[[[sid slat] slon] n] rest IH]; intros H;
    [reflexivity|].
  cbn [for_all_stops fst snd]. destruct (cap <=? c); [reflexivity|].
  assert (Hrest : forall t, In t rest -> fetchable api db t = false)
    by (intros t Ht; apply H; now right).
  destruct (count_for_stop db sid <? 50) eqn:Esat; [|now apply IH].
  rewrite (fetch_locationiq_pois_listing api sid slat slon n).
  set (t := (sid, slat, slon, n)).
  assert (Ht : fetchable api db t = false) by (apply H; now left).
  unfold fetchable, unsaturated in Ht. change (tuple_id t) with sid in Ht.
  rewrite Esat in Ht. cbn [andb] in Ht.
  rewrite for_pois_data_nothing_new; [now apply IH|].
  intros pd Hpd. destruct (is_new db sid pd) eqn:En; [|reflexivity].
  assert (existsb (is_new db sid) (listing api t) = true)
    by (apply existsb_exists; eauto).
  congruence.
Qed.

Lemma for_all_stops_same_count (cap : nat) (api : locationiq)
    (all_stops : list stop_tuple) (db db' : list PoisTable.row) (c : nat) :
  c < cap ->
  for_all_stops cap api all_stops (db, c) = Returned (db', c) ->
  forall t, In t all_stops -> fetchable api db t = false.
Proof.
  intros Hc. induction all_stops as [|[[[sid slat] slon] n] rest IH];
    [intros _ t []|].
  cbn [for_all_stops fst snd].
  apply Nat.leb_gt in Hc. rewrite Hc.
  destruct (count_for_stop db sid <? 50) eqn:Esat.
  - rewrite (fetch_locationiq_pois_listing api sid slat slon n).
    set (t := (sid, slat, slon, n)).
    destruct (for_pois_data_inserted cap sid (listing api t) db c)
      as (ins1 & J1 & _).
    destruct (for_all_stops_inserted cap api rest (db ++ ins1)
                (c + length ins1)) as (ins & I1 & _).
    intros H. pose proof H as H'. rewrite J1, I1 in H'.
    inversion H' as [[Hdb Hcount]].
    assert (E1 : ins1 = []) by (destruct ins1; [reflexivity|simpl in *; lia]).
    subst ins1. rewrite app_nil_r, Nat.add_0_r in J1. rewrite J1 in H.
    intros t' [<-|Ht'].
    + unfold fetchable. change (tuple_id t) with sid.
      destruct (existsb (is_new db sid) (listing api t)) eqn:Ex;
        [|apply andb_false_r].
      apply existsb_exists in Ex. destruct Ex as (pd & Hpd & Hnew).
      rewrite (for_pois_data_same_count _ _ _ _ _ _ J1 pd Hpd) in Hnew.
      discriminate.
    + now apply IH.
  - intros H t' [<-|Ht']; [|now apply IH].
    unfold fetchable, unsaturated.
    change (tuple_id (sid, slat, slon, n)) with sid. now rewrite Esat.
Qed.

(** With nothing to fetch, an invocation returns 0 and the table as it
    was. *)
Lemma nothing_fetchable_returns_zero (api : locationiq)
    (stops : list StopsTable.row) (db : list PoisTable.row) :
  fetchable_remains api stops db = false ->
  store_pois api stops db = Returned (db, PyInt 0).
Proof.
  unfold store_pois, store_pois_with, fetchable_remains. intros H.
  rewrite for_all_stops_nothing_fetchable; [reflexivity|].
  intros t Ht. apply reorder_In in Ht.
  destruct (fetchable api db t) eqn:E; [|reflexivity].
  assert (existsb (fetchable api db) (select_stops stops) = true)
    by (apply existsb_exists; eauto).
  congruence.
Qed.

(** X9. An invocation of [store_pois] returns 0 exactly when no stop is
    unsaturated with a record that the check does not find; it then leaves
    the table as it was. *)
Theorem store_pois_zero_iff (api : locationiq)
    (stops : list StopsTable.row) (db db' : list PoisTable.row) :
  store_pois api stops db = Returned (db', PyInt 0)
  <-> fetchable_remains api stops db = false /\ db' = db.
Proof.
  unfold store_pois, store_pois_with, fetchable_remains. split.
  - intros H.
    destruct (for_all_stops_inserted BATCH_SIZE api
                (reorder (select_stops stops) db) db 0) as (ins & I1 & _).
    pose proof I1 as I1'. rewrite I1 in H. simpl in H.
    inversion H as [[Hdb Hc]].
    assert (E : ins = []) by (destruct ins; [reflexivity|discriminate]).
    subst ins. rewrite app_nil_r. split; [|reflexivity].
    rewrite app_nil_r in I1'. simpl in I1'.
    apply not_true_is_false. intros Hex. apply existsb_exists in Hex.
    destruct Hex as (t & Ht & Hf).
    assert (Hnf : fetchable api db t = false).
    { apply (for_all_stops_same_count BATCH_SIZE api
               (reorder (select_stops stops) db) db db 0).
      - unfold BATCH_SIZE. lia.
      - exact I1'.
      - now apply reorder_In. }
    congruence.
  - intros [H ->].
    exact (nothing_fetchable_returns_zero api stops db H).
Qed.

(** An invocation that ends under the cap, with listings whose records the
    check can all find once stored, leaves nothing to fetch. *)
Lemma short_batch_exhausts (api : locationiq) (stops : list StopsTable.row)
    (db ins : list PoisTable.row) :
  store_pois api stops db
  = Returned (db ++ ins, PyInt (Z.of_nat (length ins))) ->
  length ins < BATCH_SIZE ->
  (forall t pd, In t (select_stops stops) -> In pd (listing api t) ->
                checkable pd = true) ->
  fetchable_remains api stops (db ++ ins) = false.
Proof.
  unfold store_pois.
  destruct (store_pois_with_inserted BATCH_SIZE api stops db)
    as (ins' & I1 & I2 & I3).
  rewrite I1. intros E Hlt Hd. inversion E as [[Happ Hlen]].
  apply app_inv_head in Happ. subst ins'.
  unfold fetchable_remains.
  apply not_true_is_false. intros Hex.
  apply existsb_exists in Hex. destruct Hex as (t & Ht & Hf).
  unfold fetchable in Hf. apply andb_true_iff in Hf. destruct Hf as [Hu Hn].
  destruct (I3 Hlt t Ht) as [Hs|Hs]; [congruence|].
  apply existsb_exists in Hn. destruct Hn as (pd & Hpd & Hnew).
  rewrite (Hs pd Hpd (Hd t pd Ht Hpd)) in Hnew. discriminate.
Qed.

(** X10. Once an invocation has returned a count under the cap, with
    listings whose records all carry a distance and no null name or class,
    the next invocation against the same source inserts nothing and
    returns 0. *)
Theorem store_pois_quiescent (api : locationiq)
    (stops : list StopsTable.row) (db db' : list PoisTable.row)
    (count : Z) :
  store_pois api stops db = Returned (db', PyInt count) ->
  (count < Z.of_nat BATCH_SIZE)%Z ->
  (forall t pd, In t (select_stops stops) -> In pd (listing api t) ->
                checkable pd = true) ->
  store_pois api stops db' = Returned (db', PyInt 0).
Proof.
  intros H Hc Hd.
  destruct (store_pois_rows api stops db) as (ins & I1 & _).
  rewrite I1 in H. inversion H; subst; clear H.
  apply nothing_fetchable_returns_zero.
  apply short_batch_exhausts; [exact I1|lia|exact Hd].
Qed.

Lemma store_pois_quiescent_witness :
  store_pois (Examples.poi_source 3) Examples.three_bus_stops
    (Examples.pois_after (Examples.poi_source 3) Examples.three_bus_stops [])
  = Returned
      (Examples.pois_after (Examples.poi_source 3) Examples.three_bus_stops [],
       PyInt 0).
Proof.
  apply (store_pois_quiescent (Examples.poi_source 3)
           Examples.three_bus_stops [] _ 9).
  - vm_compute. reflexivity.
  - unfold BATCH_SIZE. lia.
  - intros t pd Ht Hpd.
    assert (Hl : listing (Examples.poi_source 3) t = Examples.atms 3)
      by (destruct t as [[[? ?] ?] ?]; reflexivity).
    rewrite Hl in Hpd. simpl in Hpd.
    destruct Hpd as [<-|[<-|[<-|[]]]]; reflexivity.
Defined.

(** One invocation, as the driver sees it. *)
Lemma batch_rows (api : locationiq) (stops : list StopsTable.row)
    (db : list PoisTable.row) :
  exists ins,
    store_pois api stops db
    = Returned (db ++ ins, PyInt (Z.of_nat (length ins)))
    /\ length ins <= 25.
Proof.
  unfold store_pois.
  destruct (store_pois_with_inserted BATCH_SIZE api stops db)
    as (ins & I1 & I2 & _).
  rewrite I1. exists ins. split; [reflexivity|exact I2].
Qed.

(** The result of the driver's loop over [store_pois]. *)
Lemma poi_runs_shape (runs i : nat) (api : nat -> locationiq)
    (stops : list StopsTable.row) (db : list PoisTable.row) (total : Z) :
  exists ins,
    Main.poi_runs runs i api stops db total
    = Main.PoiDone (db ++ ins) (total + Z.of_nat (length ins))
    /\ length ins <= 25 * runs.
Proof.
  revert i db total. induction runs as [|runs IH]; intros i db total.
  - exists []. simpl. rewrite app_nil_r, Z.add_0_r. split; [reflexivity|lia].
  - cbn [Main.poi_runs].
    destruct (batch_rows (api i) stops db) as (ins1 & I1 & L1).
    rewrite I1.
    destruct (Z.of_nat (length ins1) <? 25)%Z.
    + exists ins1. split; [reflexivity|lia].
    + destruct (IH (S i) (db ++ ins1) (total + Z.of_nat (length ins1))%Z)
        as (ins & I & L).
      exists (ins1 ++ ins). rewrite I, app_assoc, length_app.
      split; [f_equal; lia|lia].
Qed.

(** X11. When the driver's loop over [store_pois] completes, [total_pois]
    has grown by exactly the number of rows the loop appended to the [pois]
    table, and that number is at most 25 per pass, whatever the source
    answered to each invocation. *)
Theorem poi_runs_total (runs i : nat) (api : nat -> locationiq)
    (stops : list StopsTable.row) (db db' : list PoisTable.row)
    (total total' : Z) :
  Main.poi_runs runs i api stops db total = Main.PoiDone db' total' ->
  exists ins,
    db' = db ++ ins
    /\ total' = (total + Z.of_nat (length ins))%Z
    /\ length ins <= 25 * runs.
Proof.
  intros H.
  destruct (poi_runs_shape runs i api stops db total) as (ins & E & L).
  rewrite E in H. inversion H; subst. exists ins. auto.
Qed.

Lemma poi_runs_total_witness :
  exists ins,
    Examples.driver_pois = [] ++ ins
    /\ 30%Z = (0 + Z.of_nat (length ins))%Z
    /\ length ins <= 25 * 3.
Proof.
  apply (poi_runs_total 3 0 (fun _ => Examples.poi_source 30)
           Examples.one_stop).
  vm_compute. reflexivity.
Defined.

(** X12. Against a source that does not change and whose records all carry
    a distance and no null name or class, a driver loop that collects fewer
    than 25 POIs per pass allowed has stopped on a short batch: no
    unsaturated stop with a record that the check does not find remains. *)
Theorem poi_runs_exhausts (runs i : nat) (api : locationiq)
    (stops : list StopsTable.row) (db ins : list PoisTable.row)
    (total total' : Z) :
  Main.poi_runs runs i (fun _ => api) stops db total
  = Main.PoiDone (db ++ ins) total' ->
  length ins < 25 * runs ->
  (forall t pd, In t (select_stops stops) -> In pd (listing api t) ->
                checkable pd = true) ->
  fetchable_remains api stops (db ++ ins) = false.
Proof.
  intros H Hlt Hd. revert i db ins total H Hlt.
  induction runs as [|runs IH]; intros i db ins total H Hlt; [lia|].
  cbn [Main.poi_runs] in H.
  destruct (batch_rows api stops db) as (ins1 & I1 & L1).
  rewrite I1 in H.
  destruct (Z.of_nat (length ins1) <? 25)%Z eqn:E.
  - inversion H as [[Happ Ht]]. apply app_inv_head in Happ. subst ins1.
    apply Z.ltb_lt in E.
    apply short_batch_exhausts; [exact I1|unfold BATCH_SIZE; lia|exact Hd].
  - apply Z.ltb_ge in E.
    destruct (poi_runs_shape runs (S i) (fun _ => api) stops (db ++ ins1)
                (total + Z.of_nat (length ins1))%Z) as (ins2 & I2 & _).
    rewrite I2 in H. inversion H as [[Happ Ht]].
    rewrite <- app_assoc in Happ. apply app_inv_head in Happ. subst ins.
    rewrite Ht in I2. apply (IH (S i) (db ++ ins1) ins2 _ I2).
    rewrite length_app in Hlt. lia.
Qed.

Lemma poi_runs_exhausts_witness :
  fetchable_remains (Examples.poi_source 30) Examples.one_stop
    ([] ++ Examples.driver_pois) = false.
Proof.
  apply (poi_runs_exhausts 3 0 (Examples.poi_source 30) Examples.one_stop
           [] Examples.driver_pois 0 30).
  - vm_compute. reflexivity.
  - vm_compute. lia.
  - intros t pd Ht Hpd.
    assert (Hl : listing (Examples.poi_source 30) t = Examples.atms 30)
      by (destruct t as [[[? ?] ?] ?]; reflexivity).
    rewrite Hl in Hpd. unfold Examples.atms in Hpd.
    apply in_map_iff in Hpd. destruct Hpd as (d & <- & _). reflexivity.
Defined.

(** One invocation adds at most 25 rows for a stop, and none when the
    stop holds 50 rows or more. *)
Lemma store_pois_stop_rows (api : locationiq) (stops : list StopsTable.row)
    (db : list PoisTable.row) (sid : Z) :
  exists ins,
    store_pois api stops db
    = Returned (db ++ ins, PyInt (Z.of_nat (length ins)))
    /\ length ins <= 25
    /\ count_for_stop (db ++ ins) sid
       <= Nat.max (count_for_stop db sid) 74.
Proof.
  destruct (store_pois_rows api stops db) as (ins & I1 & _ & _ & I4).
  destruct (batch_rows api stops db) as (ins' & I1' & L).
  rewrite I1 in I1'. inversion I1' as [[Happ Hlen]].
  apply app_inv_head in Happ. subst ins'.
  exists ins. split; [exact I1|]. split; [exact L|].
  rewrite count_for_stop_app.
  assert (Hle : count_for_stop ins sid <= length ins)
    by (unfold count_for_stop; apply filter_length_le).
  destruct (Nat.lt_ge_cases (count_for_stop db sid) 50) as [Hlt|Hge]; [lia|].
  assert (Hz : count_for_stop ins sid = 0).
  { unfold count_for_stop.
    destruct (filter (fun p => (PoisTable.stop_id p =? sid)%Z) ins)
      as [|r rs] eqn:Ef; [reflexivity|].
    assert (Hr : In r (filter (fun p => (PoisTable.stop_id p =? sid)%Z) ins))
      by (rewrite Ef; now left).
    apply filter_In in Hr. destruct Hr as [Hr Hsid].
    apply Z.eqb_eq in Hsid.
    destruct (I4 r Hr) as (t & pd & _ & _ & (H3 & _) & H4).
    rewrite H3 in Hsid. subst sid. lia. }
  lia.
Qed.

(** X13. However many passes the driver makes and whatever the source
    answers, a stop ends with at most 74 rows in the [pois] table, or with
    the rows it had when it had more: it gets rows only while it has fewer
    than 50, and at most 25 in one invocation. *)
Theorem stop_rows_bounded (runs i : nat) (api : nat -> locationiq)
    (stops : list StopsTable.row) (db : list PoisTable.row) (total : Z)
    (sid : Z) :
  exists ins total',
    Main.poi_runs runs i api stops db total
    = Main.PoiDone (db ++ ins) total'
    /\ count_for_stop (db ++ ins) sid
       <= Nat.max (count_for_stop db sid) 74.
Proof.
  revert i db total. induction runs as [|runs IH]; intros i db total.
  - exists [], total. simpl. rewrite app_nil_r. split; [reflexivity|lia].
  - cbn [Main.poi_runs].
    destruct (store_pois_stop_rows (api i) stops db sid)
      as (ins1 & I1 & _ & B1).
    rewrite I1.
    destruct (Z.of_nat (length ins1) <? 25)%Z.
    + exists ins1. eexists. split; [reflexivity|exact B1].
    + destruct (IH (S i) (db ++ ins1) (total + Z.of_nat (length ins1))%Z)
        as (ins & total' & I & B).
      exists (ins1 ++ ins), total'. rewrite I, app_assoc.
      split; [reflexivity|]. lia.
Qed.

End PoisMore.

(** * More about the aggregator: order, sections, radii, [stop_dict] *)

Section StatsMore.
Import Stats.

Lemma insert_entry_perm (e : entry) (l : list entry) :
  Permutation (e :: l) (insert_entry e l).
Proof.
  induction l as [|y l IH]; simpl; [reflexivity|].
  destruct (snd e <=? snd y); [reflexivity|].
  rewrite perm_swap. now constructor.
Qed.

Lemma sort_by_count_perm (l : list entry) :
  Permutation l (sort_by_count l).
Proof.
  induction l as [|e l IH]; simpl; [constructor|].
  rewrite <- insert_entry_perm. now constructor.
Qed.

Lemma insert_entry_ascending (e : entry) (l : list entry) :
  ascending l -> ascending (insert_entry e l).
Proof.
  induction l as [|y l IH]; simpl.
  - intros _. split; [intros e' []|exact I].
  - intros [Hy Hl]. destruct (snd e <=? snd y) eqn:E.
    + apply Nat.leb_le in E. simpl. split; [|tauto].
      intros e' [<-|He']; [exact E|]. specialize (Hy e' He'). lia.
    + apply Nat.leb_gt in E. simpl. split; [|tauto].
      intros e' He'.
      apply (Permutation_in _ (Permutation_sym (insert_entry_perm e l)))
        in He'.
      destruct He' as [<-|He']; [lia|now apply Hy].
Qed.

Lemma sort_by_count_ascending (l : list entry) :
  ascending (sort_by_count l).
Proof.
  induction l as [|e l IH]; simpl; [exact I|].
  now apply insert_entry_ascending.
Qed.

(** The sort is stable: it moves an entry in front of larger counts only. *)
Lemma insert_entry_filter (c : nat) (e : entry) (l : list entry) :
  filter (fun x => snd x =? c) (insert_entry e l)
  = filter (fun x => snd x =? c) (e :: l).
Proof.
  induction l as [|y l IH]; simpl; [reflexivity|].
  destruct (snd e <=? snd y) eqn:E; [reflexivity|].
  apply Nat.leb_gt in E. simpl. rewrite IH. simpl.
  destruct (snd e =? c) eqn:Ee; [|reflexivity].
  apply Nat.eqb_eq in Ee.
  destruct (snd y =? c) eqn:Ey; [|reflexivity].
  apply Nat.eqb_eq in Ey. lia.
Qed.

Lemma sort_by_count_stable (c : nat) (l : list entry) :
  filter (fun x => snd x =? c) (sort_by_count l)
  = filter (fun x => snd x =? c) l.
Proof.
  induction l as [|e l IH]; simpl; [reflexivity|].
  rewrite insert_entry_filter. simpl. now rewrite IH.
Qed.

Lemma deduplicated_get (stops : list StopsTable.row)
    (db : list PoisTable.row) (radius : Z) (stype : string) :
  dict_get String.eqb (deduplicated stops db radius) stype
  = match entries_of_type stype (query stops db radius) with
    | [] => None
    | l => Some (dedup l)
    end.
Proof.
  unfold deduplicated. rewrite dict_get_map_values, organize_get.
  now destruct (entries_of_type stype (query stops db radius)).
Qed.

Lemma data_by_type_get (stops : list StopsTable.row)
    (db : list PoisTable.row) (radius : Z) (stype : string) :
  dict_get String.eqb (data_by_type stops db radius) stype
  = option_map sort_by_count
      (dict_get String.eqb (deduplicated stops db radius) stype).
Proof.
  unfold data_by_type. apply dict_get_map_values.
Qed.

(** X14. After the sorting loop, the list of a stop type holds the entries
    the deduplication kept, ascending by POI count, and entries with the
    same count are in the order the deduplication left them in. *)
Theorem data_by_type_sorted_stable (stops : list StopsTable.row)
    (db : list PoisTable.row) (radius : Z) (stype : string)
    (l : list entry) :
  dict_get String.eqb (data_by_type stops db radius) stype = Some l ->
  exists l0,
    dict_get String.eqb (deduplicated stops db radius) stype = Some l0
    /\ Permutation l0 l
    /\ ascending l
    /\ forall c, filter (fun e => snd e =? c) l
                 = filter (fun e => snd e =? c) l0.
Proof.
  rewrite data_by_type_get.
  destruct (dict_get String.eqb (deduplicated stops db radius) stype)
    as [l0|]; [|discriminate].
  simpl. intros H. inversion H; subst. exists l0.
  split; [reflexivity|]. split; [apply sort_by_count_perm|].
  split; [apply sort_by_count_ascending|].
  intros c. apply sort_by_count_stable.
Qed.

Lemma data_by_type_sorted_stable_witness :
  exists l0,
    dict_get String.eqb
      (deduplicated Examples.abc_stops Examples.abc_pois 416)
      "bus_stops" = Some l0
    /\ Permutation l0 [(Some "C", 1); (Some "A", 3); (Some "B", 3)]
    /\ ascending [(Some "C", 1); (Some "A", 3); (Some "B", 3)]
    /\ forall c,
         filter (fun e => snd e =? c)
                [(Some "C", 1); (Some "A", 3); (Some "B", 3)]
         = filter (fun e => snd e =? c) l0.
Proof.
  apply (data_by_type_sorted_stable Examples.abc_stops Examples.abc_pois
           416 "bus_stops").
  vm_compute. reflexivity.
Defined.

Lemma ascending_app (a b : list entry) :
  ascending (a ++ b) ->
  ascending a /\ ascending b
  /\ forall x y, In x a -> In y b -> snd x <= snd y.
Proof.
  induction a as [|e a IH]; simpl.
  - intros H. split; [exact I|]. split; [exact H|]. intros x y [].
  - intros [He Hab]. destruct (IH Hab) as (Ha & Hb & Hle).
    split; [|split; [exact Hb|]].
    + split; [|exact Ha]. intros e' He'. apply He. apply in_or_app. now left.
    + intros x y [<-|Hx] Hy; [|now apply Hle].
      apply He. apply in_or_app. now right.
Qed.

(** The list that [report_section] reads. *)
Lemma report_section_eq (d : dict string (list entry)) (stype : string) :
  let l := match dict_get String.eqb d stype with
           | Some l => l
           | None => []
           end in
  report_section d stype
  = mkSection (rev (skipn (length l - 5) l)) (firstn 5 l).
Proof.
  intros l. unfold report_section. fold l.
  destruct (5 <=? length l) eqn:E; [reflexivity|].
  apply Nat.leb_gt in E. replace (length l - 5) with 0 by lia.
  reflexivity.
Qed.

(** X15. The section of the report for a threshold and a stop type: both
    lists have 5 entries, or as many as the type has names when these are
    fewer; [least] is in ascending and [most] in descending order of count;
    an entry of the type that is not in [most] has no larger count than the
    entries of [most], and one that is not in [least] has no smaller count
    than the entries of [least]. *)
Theorem report_section_extremes (stops : list StopsTable.row)
    (db : list PoisTable.row) (radius : Z) (stype : string) :
  let d := data_by_type stops db radius in
  let l := match dict_get String.eqb d stype with
           | Some l => l
           | None => []
           end in
  let sec := report_section d stype in
  length (most sec) = Nat.min 5 (length l)
  /\ length (least sec) = Nat.min 5 (length l)
  /\ ascending (least sec)
  /\ ascending (rev (most sec))
  /\ (forall e m, In e l -> In m (most sec) ->
                  In e (most sec) \/ snd e <= snd m)
  /\ (forall e x, In e l -> In x (least sec) ->
                  In e (least sec) \/ snd x <= snd e).
Proof.
  intros d l sec.
  assert (Hasc : ascending l).
  { unfold l, d. rewrite data_by_type_get.
    destruct (dict_get String.eqb (deduplicated stops db radius) stype);
      simpl; [apply sort_by_count_ascending|exact I]. }
  unfold sec. rewrite report_section_eq. fold l. cbn [most least].
  rewrite length_rev, length_skipn, length_firstn, rev_involutive.
  pose proof (firstn_skipn 5 l) as E5.
  pose proof (firstn_skipn (length l - 5) l) as Ek.
  pose proof Hasc as H5. rewrite <- E5 in H5.
  apply ascending_app in H5. destruct H5 as (A5 & _ & L5).
  pose proof Hasc as Hk. rewrite <- Ek in Hk.
  apply ascending_app in Hk. destruct Hk as (_ & Ak & Lk).
  split; [lia|]. split; [lia|]. split; [exact A5|]. split; [exact Ak|].
  split.
  - intros e m He Hm. rewrite <- in_rev in Hm. rewrite <- in_rev.
    rewrite <- Ek in He. apply in_app_or in He.
    destruct He as [He|He]; [right; now apply Lk|now left].
  - intros e x He Hx. rewrite <- E5 in He. apply in_app_or in He.
    destruct He as [He|He]; [now left|right; now apply L5].
Qed.

(** X16. A stop type has a list in [data_by_type] exactly when a stored
    stop has that type, and that list is never empty. A type without
    stops gets a section with two empty lists. *)
Theorem data_by_type_types (stops : list StopsTable.row)
    (db : list PoisTable.row) (radius : Z) (stype : string) :
  match dict_get String.eqb (data_by_type stops db radius) stype with
  | Some l =>
      l <> [] /\ exists s, In s stops /\ StopsTable.stop_type s = stype
  | None =>
      (forall s, In s stops -> StopsTable.stop_type s <> stype)
      /\ report_section (data_by_type stops db radius) stype
         = mkSection [] []
  end.
Proof.
  rewrite data_by_type_get, deduplicated_get.
  pose proof (entries_of_type_In stops db radius stype) as Hin.
  destruct (entries_of_type stype (query stops db radius)) as [|e l] eqn:E;
    cbn [option_map].
  - split.
    + intros s Hs Hty.
      apply (proj2 (Hin (StopsTable.name s,
                         poi_count db (StopsTable.id s) radius))).
      exists s. auto.
    + rewrite report_section_eq, data_by_type_get, deduplicated_get, E.
      reflexivity.
  - split.
    + destruct (dedup_unique_of (e :: l)) as (_ & _ & Hdom).
      destruct e as [nm c].
      destruct (Hdom nm c (or_introl eq_refl)) as [c0 Hc0].
      apply (dict_get_In _ _ _ name_eqb_eq) in Hc0.
      apply (Permutation_in _ (sort_by_count_perm _)) in Hc0.
      intros Hnil. rewrite Hnil in Hc0. destruct Hc0.
    + destruct (proj1 (Hin e) (or_introl eq_refl)) as (s & H1 & H2 & _).
      exists s. auto.
Qed.

Lemma poi_count_mono (db : list PoisTable.row) (sid r1 r2 : Z) :
  (r1 <= r2)%Z -> poi_count db sid r1 <= poi_count db sid r2.
Proof.
  intros Hr. unfold poi_count. induction db as [|p db IH]; simpl; [lia|].
  destruct (sid =? PoisTable.stop_id p)%Z; simpl; [|exact IH].
  destruct (PoisTable.distance p) as [dist|]; simpl; [|exact IH].
  destruct (dist <=? r1)%Z eqn:E1.
  - apply Z.leb_le in E1.
    assert (E2 : (dist <=? r2)%Z = true) by (apply Z.leb_le; lia).
    rewrite E2. simpl. lia.
  - destruct (dist <=? r2)%Z; simpl; lia.
Qed.

(** X17. A larger threshold never lowers a count: the entry that the
    deduplication keeps for a name of a stop type at a threshold has a
    counterpart at every larger threshold, with a count that is at least
    as large. *)
Theorem counts_grow_with_radius (stops : list StopsTable.row)
    (db : list PoisTable.row) (r1 r2 : Z) (stype : string)
    (l1 : list entry) (nm : option string) (c1 : nat) :
  (r1 <= r2)%Z ->
  dict_get String.eqb (deduplicated stops db r1) stype = Some l1 ->
  In (nm, c1) l1 ->
  exists l2 c2,
    dict_get String.eqb (deduplicated stops db r2) stype = Some l2
    /\ In (nm, c2) l2 /\ c1 <= c2.
Proof.
  intros Hr. rewrite !deduplicated_get.
  set (e1 := entries_of_type stype (query stops db r1)).
  set (e2 := entries_of_type stype (query stops db r2)).
  intros H1 Hin.
  assert (Hl1 : l1 = dedup e1)
    by (destruct e1; [discriminate|now inversion H1]).
  subst l1.
  destruct (dedup_unique_of e1) as (N1 & M1 & _).
  apply (In_dict_get _ _ _ name_eqb_eq _ _ _ N1) in Hin.
  destruct (M1 nm c1 Hin) as [Hseen _].
  apply entries_of_type_In in Hseen.
  destruct Hseen as (s & Hs & Hty & Hes). inversion Hes; subst.
  assert (H2 : In (StopsTable.name s,
                   poi_count db (StopsTable.id s) r2) e2)
    by (apply entries_of_type_In; exists s; auto).
  destruct (dedup_unique_of e2) as (_ & M2 & D2).
  destruct (D2 _ _ H2) as [c2 Hc2].
  destruct (M2 _ _ Hc2) as [_ Hle2].
  exists (dedup e2), c2. split.
  - destruct e2; [destruct H2|reflexivity].
  - split; [eapply dict_get_In; [apply name_eqb_eq|exact Hc2]|].
    specialize (Hle2 _ H2).
    pose proof (poi_count_mono db (StopsTable.id s) r1 r2 Hr). lia.
Qed.

Lemma counts_grow_with_radius_witness :
  exists l2 c2,
    dict_get String.eqb
      (deduplicated Examples.main_st_stops Examples.main_st_pois 5)
      "bus_stops" = Some l2
    /\ In (Some "Main St", c2) l2 /\ 3 <= c2.
Proof.
  apply (counts_grow_with_radius Examples.main_st_stops
           Examples.main_st_pois 3 5 "bus_stops" [(Some "Main St", 3)]).
  - lia.
  - vm_compute. reflexivity.
  - now left.
Defined.

Lemma find_app {A : Type} (p : A -> bool) (a b : list A) :
  find p (a ++ b)
  = match find p a with
    | Some x => Some x
    | None => find p b
    end.
Proof.
  induction a as [|x a IH]; simpl; [reflexivity|].
  now destruct (p x).
Qed.

Lemma stop_dict_fold (stops : list StopsTable.row)
    (d : dict (option string) stop_info) (nm : option string) :
  dict_get name_eqb
    (fold_left
       (fun d s => dict_set name_eqb d (StopsTable.name s)
                            (StopsTable.stop_type s, StopsTable.lat s,
                             StopsTable.lon s))
       stops d) nm
  = match find (fun s => name_eqb (StopsTable.name s) nm) (rev stops) with
    | Some s => Some (StopsTable.stop_type s, StopsTable.lat s,
                      StopsTable.lon s)
    | None => dict_get name_eqb d nm
    end.
Proof.
  revert d. induction stops as [|s stops IH]; intros d; [reflexivity|].
  cbn [fold_left rev]. rewrite IH, find_app.
  destruct (find _ (rev stops)); [reflexivity|].
  rewrite (dict_get_set _ _ _ name_eqb_eq). simpl.
  now destruct (name_eqb (StopsTable.name s) nm).
Qed.

(** X18. [stop_dict], the second result of [load_data_from_db], maps a
    name to the type, latitude and longitude of the last stored stop with
    that name, and has no entry for a name that no stop has. *)
Theorem stop_dict_last_wins (stops : list StopsTable.row)
    (db : list PoisTable.row) (nm : option string) :
  dict_get name_eqb (snd (load_data_from_db stops db)) nm
  = match find (fun s => name_eqb (StopsTable.name s) nm) (rev stops) with
    | Some s => Some (StopsTable.stop_type s, StopsTable.lat s,
                      StopsTable.lon s)
    | None => None
    end.
Proof.
  unfold load_data_from_db, stop_dict. cbn [snd].
  now rewrite stop_dict_fold.
Qed.

Lemma organize_keys_NoDup (rows : list (string * option string * nat)) :
  NoDup (keys (organize rows)).
Proof.
  unfold organize.
  assert (H : forall d : dict string (list entry),
             NoDup (keys d) ->
             NoDup (keys
               (fold_left
                  (fun d row =>
                     let '(stop_type, name, c) := row in
                     let l := match dict_get String.eqb d stop_type with
                              | Some l => l
                              | None => []
                              end in
                     dict_set String.eqb d stop_type (l ++ [(name, c)]))
                  rows d))).
  { induction rows as [|[[ty nm] c] rows IH]; intros d Hd; [exact Hd|].
    cbn [fold_left]. apply IH.
    apply dict_set_NoDup; [apply String.eqb_eq|exact Hd]. }
  apply H. constructor.
Qed.

(** The names in the lists of [data_by_type] are names of stored stops of
    the type. *)
Lemma data_by_type_names (stops : list StopsTable.row)
    (db : list PoisTable.row) (radius : Z) (stype : string)
    (l : list entry) (nm : option string) (c : nat) :
  In (stype, l) (data_by_type stops db radius) -> In (nm, c) l ->
  exists s, In s stops /\ StopsTable.stop_type s = stype
            /\ StopsTable.name s = nm.
Proof.
  unfold data_by_type, deduplicated. rewrite map_map. intros H Hin.
  apply in_map_iff in H. destruct H as ([k l0] & E & Hk).
  simpl in E. inversion E; subst; clear E.
  apply (In_dict_get _ _ String.eqb String.eqb_eq) in Hk;
    [|apply organize_keys_NoDup].
  rewrite organize_get in Hk.
  apply (Permutation_in _ (Permutation_sym (sort_by_count_perm _))) in Hin.
  destruct (dedup_unique_of l0) as (N & M & _).
  apply (In_dict_get _ _ _ name_eqb_eq _ _ _ N) in Hin.
  destruct (M nm c Hin) as [Hseen _].
  destruct (entries_of_type stype (query stops db radius)) eqn:Ee;
    [discriminate|].
  inversion Hk; subst. rewrite <- Ee in Hseen.
  apply entries_of_type_In in Hseen.
  destruct Hseen as (s & H1 & H2 & H3). inversion H3; subst. eauto.
Qed.

(** X19. Every name in the data that [load_data_from_db] returns is a key
    of the [stop_dict] it returns with them: the lookup [stop_dict[sname]]
    of the map plot finds an entry for every name of every list. *)
Theorem stop_dict_covers_data (stops : list StopsTable.row)
    (db : list PoisTable.row) (radius : Z)
    (d : dict string (list entry)) (stype : string) (l : list entry)
    (nm : option string) (c : nat) :
  In (radius, d) (fst (load_data_from_db stops db)) ->
  In (stype, l) d -> In (nm, c) l ->
  exists info,
    dict_get name_eqb (snd (load_data_from_db stops db)) nm = Some info.
Proof.
  intros Hd Hl Hin.
  unfold load_data_from_db at 1, stop_dict. cbn [snd].
  rewrite stop_dict_fold. cbn [dict_get].
  unfold load_data_from_db in Hd. cbn [fst] in Hd.
  apply in_map_iff in Hd. destruct Hd as (r & E & _).
  inversion E; subst; clear E.
  destruct (data_by_type_names _ _ _ _ _ _ _ Hl Hin) as (s & Hs & _ & Hnm).
  destruct (find (fun s0 => name_eqb (StopsTable.name s0) nm) (rev stops))
    as [s'|] eqn:Ef; [eauto|].
  pose proof (find_none _ _ Ef s (proj1 (in_rev _ _) Hs)) as Hf.
  cbv beta in Hf. rewrite (proj2 (name_eqb_eq _ _) Hnm) in Hf.
  discriminate.
Qed.

Lemma stop_dict_covers_data_witness :
  exists info,
    dict_get name_eqb
      (snd (load_data_from_db Examples.abc_stops Examples.abc_pois))
      (Some "B") = Some info.
Proof.
  apply (stop_dict_covers_data Examples.abc_stops Examples.abc_pois 833
           (data_by_type Examples.abc_stops Examples.abc_pois 833)
           "bus_stops" [(Some "C", 1); (Some "A", 3); (Some "B", 3)]
           (Some "B") 3).
  - vm_compute. auto.
  - vm_compute. auto.
  - simpl. auto.
Defined.

End StatsMore.

(** * Records without a distance *)

Section MissingDistance.
Import Pois.









End MissingDistance.
